(** * streamlit_folium: identifier stabilisation, script assembly, defaults
      and the re-mount key

    A shallow embedding of [streamlit_folium/__init__.py].  Python [str]
    values are modelled by [string] (the UTF-8 bytes of the text: every
    pattern and separator the module uses is ASCII, so matching and cutting
    bytes agrees with matching and cutting code points).  Exceptions are
    values of [exn] carried in a sum; objects that the module mutates
    ([_id], the [mappings] dict) are threaded explicitly. *)

From Stdlib Require Import String Ascii List ZArith NArith Lia Bool Arith.
From Stdlib Require Import DecimalString Decimal DecimalNat Relations.
Import ListNotations.
Local Open Scope string_scope.
Set Warnings "-register-all".

(** ** Text *)

Module Text.

(** ["\n"] *)
Definition nl : string := String (ascii_of_nat 10) EmptyString.

Fixpoint drop (n : nat) (s : string) : string :=
  match n, s with
  | O, _ => s
  | S k, String _ t => drop k t
  | S _, EmptyString => EmptyString
  end.

(** [old in s] *)
Fixpoint occurs (old s : string) : bool :=
  prefix old s ||
  match s with
  | EmptyString => false
  | String _ t => occurs old t
  end.

(** [new.join] over the characters of [s], with [new] in front of each one
    and once more at the end: what [s.replace("", new)] returns. *)
Fixpoint around_each (new s : string) : string :=
  match s with
  | EmptyString => new
  | String c t => new ++ String c (around_each new t)
  end.

(** The scan of [str.replace] for a non-empty [old]: leftmost occurrences,
    not overlapping, each replaced by [new].  [fuel] bounds the number of
    positions visited; [length s] is always enough. *)
Fixpoint replace_scan (fuel : nat) (old new s : string) : string :=
  match fuel with
  | O => s
  | S f =>
      match s with
      | EmptyString => EmptyString
      | String c t =>
          if prefix old s
          then new ++ replace_scan f old new (drop (String.length old) s)
          else String c (replace_scan f old new t)
      end
  end.

(** [s.replace(old, new)] *)
Definition replace (old new s : string) : string :=
  match old with
  | EmptyString => around_each new s
  | String _ _ => replace_scan (String.length s) old new s
  end.

(** [str(n)] for a non-negative integer. *)
Definition str_nat (n : nat) : string := NilZero.string_of_uint (Nat.to_uint n).

(** [str(key)] for [key : str | None]. *)
Definition str (key : option string) : string :=
  match key with
  | None => "None"
  | Some k => k
  end.

End Text.

(** ** Regular expressions of [generate_js_hash] *)

Module Re.

Definition in_range (lo hi c : ascii) : bool :=
  (N_of_ascii lo <=? N_of_ascii c)%N && (N_of_ascii c <=? N_of_ascii hi)%N.

(** The class [[a-z0-9]]. *)
Definition lower_alnum (c : ascii) : bool :=
  in_range "a" "z" c || in_range "0" "9" c.

(** The class [[-a-z0-9]]. *)
Definition dash_lower_alnum (c : ascii) : bool :=
  Ascii.eqb c "-" || lower_alnum c.

(** Greedy [cls*]: what is left of [s] after its longest prefix in [cls]. *)
Fixpoint skip_class (cls : ascii -> bool) (s : string) : string :=
  match s with
  | EmptyString => EmptyString
  | String c t => if cls c then skip_class cls t else s
  end.

(** A matcher tells whether the pattern matches at the head of the text and
    gives the text after the match. *)
Definition matcher := string -> option string.

(** [_[a-z0-9]+] *)
Definition pattern : matcher := fun s =>
  match s with
  | String "_" (String d t) =>
      if lower_alnum d then Some (skip_class lower_alnum t) else None
  | _ => None
  end.

(** [maps\/[-a-z0-9]+\/].  The class excludes ["/"], so the greedy run never
    has to give a character back. *)
Definition url_pattern : matcher := fun s =>
  if prefix "maps/" s then
    match Text.drop 5 s with
    | String d t =>
        if dash_lower_alnum d then
          match skip_class dash_lower_alnum t with
          | String "/" r => Some r
          | _ => None
          end
        else None
    | EmptyString => None
    end
  else None.

(** [re.sub(p, "", s)]: scan from the left, delete each match, go on after
    it.  Neither pattern matches the empty string. *)
Fixpoint sub_scan (p : matcher) (fuel : nat) (s : string) : string :=
  match fuel with
  | O => s
  | S f =>
      match s with
      | EmptyString => EmptyString
      | String c t =>
          match p s with
          | Some r => sub_scan p f r
          | None => String c (sub_scan p f t)
          end
      end
  end.

Definition sub (p : matcher) (s : string) : string := sub_scan p (String.length s) s.

End Re.

(** A match consumes at least one character and leaves a suffix of the
    text. *)
Definition consumes (p : Re.matcher) : Prop :=
  forall s r, p s = Some r -> exists m, m <> "" /\ s = m ++ r.

(** The text [z] can be cut off after [x]: from no place in [x] does a
    match of [p] reach into [z], and none is missed for lack of [z]. *)
Definition cuts_before (p : Re.matcher) (x z : string) : Prop :=
  forall u w, x = u ++ w -> w <> "" ->
    p (w ++ z) = option_map (fun r => r ++ z) (p w).

(** ** [hashlib.sha256(...).hexdigest()] (FIPS 180-4) *)

Module Sha256.
Local Open Scope Z_scope.

Definition w32 (x : Z) : Z := Z.land x 4294967295.
Definition add32 (x y : Z) : Z := w32 (x + y).
Definition rotr (n x : Z) : Z := Z.lor (Z.shiftr x n) (w32 (Z.shiftl x (32 - n))).
Definition not32 (x : Z) : Z := Z.lxor x 4294967295.

Definition Ch (x y z : Z) : Z := Z.lxor (Z.land x y) (Z.land (not32 x) z).
Definition Maj (x y z : Z) : Z :=
  Z.lxor (Z.lxor (Z.land x y) (Z.land x z)) (Z.land y z).
Definition Sigma0 (x : Z) : Z := Z.lxor (Z.lxor (rotr 2 x) (rotr 13 x)) (rotr 22 x).
Definition Sigma1 (x : Z) : Z := Z.lxor (Z.lxor (rotr 6 x) (rotr 11 x)) (rotr 25 x).
Definition sigma0 (x : Z) : Z := Z.lxor (Z.lxor (rotr 7 x) (rotr 18 x)) (Z.shiftr x 3).
Definition sigma1 (x : Z) : Z := Z.lxor (Z.lxor (rotr 17 x) (rotr 19 x)) (Z.shiftr x 10).

Definition K : list Z :=
  [1116352408; 1899447441; 3049323471; 3921009573; 961987163; 1508970993;
   2453635748; 2870763221; 3624381080; 310598401; 607225278; 1426881987;
   1925078388; 2162078206; 2614888103; 3248222580; 3835390401; 4022224774;
   264347078; 604807628; 770255983; 1249150122; 1555081692; 1996064986;
   2554220882; 2821834349; 2952996808; 3210313671; 3336571891; 3584528711;
   113926993; 338241895; 666307205; 773529912; 1294757372; 1396182291;
   1695183700; 1986661051; 2177026350; 2456956037; 2730485921; 2820302411;
   3259730800; 3345764771; 3516065817; 3600352804; 4094571909; 275423344;
   430227734; 506948616; 659060556; 883997877; 958139571; 1322822218;
   1537002063; 1747873779; 1955562222; 2024104815; 2227730452; 2361852424;
   2428436474; 2756734187; 3204031479; 3329325298].

Definition H0 : list Z :=
  [1779033703; 3144134277; 1013904242; 2773480762;
   1359893119; 2600822924; 528734635; 1541459225].

Definition bytes_of (s : string) : list Z :=
  map (fun c => Z.of_nat (nat_of_ascii c)) (list_ascii_of_string s).

(** Big-endian bytes of [x], [n] of them. *)
Fixpoint be_bytes (n : nat) (x : Z) : list Z :=
  match n with
  | O => []
  | S k => Z.land (Z.shiftr x (8 * Z.of_nat k)) 255 :: be_bytes k x
  end.

(** The message, a 1 bit, zeros up to 56 mod 64, the bit length on 64 bits. *)
Definition pad (msg : list Z) : list Z :=
  let l := Z.of_nat (List.length msg) in
  let zeros := Z.to_nat ((55 - l) mod 64) in
  msg ++ 128 :: repeat 0 zeros ++ be_bytes 8 (8 * l).

Fixpoint words (n : nat) (bs : list Z) : list Z :=
  match n with
  | O => []
  | S k =>
      match bs with
      | b0 :: b1 :: b2 :: b3 :: r =>
          (b0 * 16777216 + b1 * 65536 + b2 * 256 + b3) :: words k r
      | _ => []
      end
  end.

(** The message schedule: [w] holds the words computed so far, latest
    first. *)
Fixpoint schedule (n : nat) (w : list Z) : list Z :=
  match n with
  | O => List.rev w
  | S k =>
      let x := add32 (add32 (sigma1 (nth 1 w 0)) (nth 6 w 0))
                     (add32 (sigma0 (nth 14 w 0)) (nth 15 w 0)) in
      schedule k (x :: w)
  end.

Definition round (st : list Z) (kw : Z * Z) : list Z :=
  match st with
  | [a; b; c; d; e; f; g; h] =>
      let t1 := add32 (add32 (add32 h (Sigma1 e)) (add32 (Ch e f g) (fst kw))) (snd kw) in
      let t2 := add32 (Sigma0 a) (Maj a b c) in
      [add32 t1 t2; a; b; c; add32 d t1; e; f; g]
  | _ => st
  end.

Definition compress (st : list Z) (block : list Z) : list Z :=
  let w := schedule 48 (List.rev (words 16 block)) in
  map (fun p => add32 (fst p) (snd p)) (combine st (fold_left round (combine K w) st)).

Fixpoint blocks (n : nat) (st : list Z) (bs : list Z) : list Z :=
  match n with
  | O => st
  | S k => blocks k (compress st (firstn 64 bs)) (skipn 64 bs)
  end.

Definition digest (msg : list Z) : list Z :=
  let p := pad msg in
  blocks (Nat.div (List.length p) 64) H0 p.

Definition hex_digit (x : Z) : ascii :=
  if x <? 10 then ascii_of_nat (48 + Z.to_nat x) else ascii_of_nat (87 + Z.to_nat x).

Fixpoint hex (n : nat) (x : Z) : string :=
  match n with
  | O => EmptyString
  | S k => String (hex_digit (Z.land (Z.shiftr x (4 * Z.of_nat k)) 15)) (hex k x)
  end.

Definition hexdigest (s : string) : string :=
  String.concat EmptyString (map (hex 8) (digest (bytes_of s))).

End Sha256.

(** ** [generate_js_hash] *)

(** The script and the key are texts that [.encode()] accepts: a [str] that
    holds a lone surrogate, on which [.encode()] raises, has no counterpart
    among the byte strings of this model. *)

Definition generate_js_hash (js_string : string) (key : option string) : string :=
  let pattern := Re.pattern in
  let standardized_js := Re.sub pattern js_string ++ Text.str key in
  let url_pattern := Re.url_pattern in
  let standardized_js := Re.sub url_pattern standardized_js ++ Text.str key in
  let s := Sha256.hexdigest standardized_js in
  s.

(** The text whose digest [generate_js_hash] returns. *)
Definition standardized_js (js_string : string) (key : option string) : string :=
  Re.sub Re.url_pattern (Re.sub Re.pattern js_string ++ Text.str key)
  ++ Text.str key.

(** ** Scripts that differ only in random parts *)

Fixpoint all_in (cls : ascii -> bool) (s : string) : bool :=
  match s with
  | EmptyString => true
  | String c t => cls c && all_in cls t
  end.

Fixpoint last_char (s : string) : option ascii :=
  match s with
  | EmptyString => None
  | String c EmptyString => Some c
  | String _ t => last_char t
  end.

(** [s.endswith(suf)] *)
Fixpoint ends_with (suf s : string) : bool :=
  String.eqb suf s ||
  match s with
  | EmptyString => false
  | String _ t => ends_with suf t
  end.

(** The text is empty or starts with a character outside [cls]. *)
Definition starts_outside (cls : ascii -> bool) (z : string) : bool :=
  match z with
  | EmptyString => true
  | String c _ => negb (cls c)
  end.

(** The class [[-a-z0-9_]]. *)
Definition word_char (c : ascii) : bool :=
  Re.dash_lower_alnum c || Ascii.eqb c "_".

(** A place where a tile path segment is read as one by both passes: the
    text before it is empty or ends with a character outside [[-a-z0-9_]],
    and, once the identifier suffixes are stripped from it, does not end
    with ["maps/"]. *)
Definition tile_context (x : string) : bool :=
  match last_char x with
  | None => true
  | Some c => negb (word_char c)
  end
  && negb (ends_with "maps/" (Re.sub Re.pattern x)).

(** Any place at all. *)
Definition any_context (x : string) : bool := true.

(** Two scripts that differ in one random part: an identifier suffix (["_"]
    and a non-empty run of [[a-z0-9]]) against another, or a tile path
    segment (["maps/"], a non-empty run of [[-a-z0-9]], ["/"]) against
    another, the latter at a place that [ctx] accepts. *)
Inductive differ_once (ctx : string -> bool) : string -> string -> Prop :=
| suffix_differs x h1 h2 y :
    h1 <> "" -> h2 <> "" ->
    all_in Re.lower_alnum h1 = true -> all_in Re.lower_alnum h2 = true ->
    differ_once ctx (x ++ "_" ++ h1 ++ y) (x ++ "_" ++ h2 ++ y)
| tile_differs x r1 r2 y :
    r1 <> "" -> r2 <> "" ->
    all_in Re.dash_lower_alnum r1 = true -> all_in Re.dash_lower_alnum r2 = true ->
    ctx x = true ->
    differ_once ctx (x ++ "maps/" ++ r1 ++ "/" ++ y) (x ++ "maps/" ++ r2 ++ "/" ++ y).

(** Two scripts that differ only in such parts, in any number of places. *)
Definition differ_only (ctx : string -> bool) : string -> string -> Prop :=
  clos_refl_trans string (differ_once ctx).

(** ** Exceptions and results *)

(** The exception classes the module tells apart: [jinja2.UndefinedError],
    [AttributeError], and any exception that is an instance of neither. *)
Inductive exn : Type :=
| UndefinedError
| AttributeError
| OtherError (name : string).

(** A computation that returns a value or raises. *)
Definition Res (A : Type) : Type := (A + exn)%type.

Definition ret {A : Type} (a : A) : Res A := inl a.
Definition raise {A : Type} (e : exn) : Res A := inr e.

(** ** The [mappings] dict *)

(** A Python dict keeps insertion order; assigning to a key that is present
    overwrites the value in place. *)
Definition Dict : Type := list (string * string).

Fixpoint dict_set (d : Dict) (k v : string) : Dict :=
  match d with
  | [] => [(k, v)]
  | (k', v') :: r =>
      if String.eqb k' k then (k, v) :: r else (k', v') :: dict_set r k v
  end.

Fixpoint dict_get (d : Dict) (k : string) : option string :=
  match d with
  | [] => None
  | (k', v') :: r => if String.eqb k' k then Some v' else dict_get r k
  end.

Definition keys (d : Dict) : list string := map fst d.

(** ** The element tree *)

(** A template as this module uses it: [_template.module.script(m)] and
    [_template.render(this=m, kwargs={})].  Of the node's attributes only
    [_id] is written by this module, so each is a function of the node's
    current [_id]; all else the template reads is fixed in the function,
    among it the identifiers that other nodes had when the element was set
    up (a layer control names its layers so).  The same element built in two
    runs has two templates, which may render different text. *)
Record Template : Type := {
  module_script : string -> Res string;
  render : string -> Res string
}.

(** [folium.plugins.DualMap] holds its two maps in [m1] and [m2]; every other
    element holds its children in [_children], in insertion order. *)
Inductive Node : Type :=
| Element (_id : string) (_name : string) (_template : Template)
          (_children : list Node)
| DualMap (_id : string) (_name : string) (_template : Template)
          (m1 m2 : Node).

Definition node_id (m : Node) : string :=
  match m with
  | Element i _ _ _ => i
  | DualMap i _ _ _ _ => i
  end.

Definition node_name (m : Node) : string :=
  match m with
  | Element _ n _ _ => n
  | DualMap _ n _ _ _ => n
  end.

Definition lower_char (c : ascii) : ascii :=
  if Re.in_range "A" "Z" c then ascii_of_N (N_of_ascii c + 32) else c.

Fixpoint lower (s : string) : string :=
  match s with
  | EmptyString => EmptyString
  | String c t => String (lower_char c) (lower t)
  end.

Definition get_full_id (m : Node) : string :=
  let m := match m with DualMap _ _ _ m1 _ => m1 | _ => m end in
  lower (node_name m) ++ "_" ++ node_id m.

(** ** [_generate_leaflet_string] *)

(** The outcome of a call: the node as the call leaves it, the dict as the
    call leaves it, and the returned script or the exception raised.  Node
    and dict are mutated in place, so they keep their changes when the call
    raises. *)
Definition Outcome : Type := (Node * Dict * Res string)%type.

(** The loop over [enumerate(m._children.values())], for the recursive call
    [rec child base_id mappings]. *)
Definition for_children (rec : Node -> string -> Dict -> Outcome)
    (base_id : string) :
    nat -> list Node -> string -> Dict -> list Node * Dict * Res string :=
  fix loop (idx : nat) (children : list Node) (leaflet : string)
      (mappings : Dict) {struct children} :=
    match children with
    | [] => ([], mappings, ret leaflet)
    | child :: rest =>
        let '(child', mappings, r) :=
          rec child (base_id ++ "_" ++ Text.str_nat idx) mappings in
        match r with
        | inl s =>
            let '(rest', mappings, r) :=
              loop (S idx) rest (leaflet ++ (Text.nl ++ s)) mappings in
            (child' :: rest', mappings, r)
        | inr UndefinedError | inr AttributeError =>
            let '(rest', mappings, r) := loop (S idx) rest leaflet mappings in
            (child' :: rest', mappings, r)
        | inr e => (child' :: rest, mappings, raise e)
        end
    end.

(** The [try] around the node's own snippet. *)
Definition own_script (t : Template) (id : string) : Res string :=
  match module_script t id with
  | inr UndefinedError => render t id
  | r => r
  end.

Fixpoint _generate_leaflet_string (m : Node) (nested : bool) (base_id : string)
    (mappings : Dict) {struct m} : Outcome :=
  match m with
  | DualMap id name t m1 m2 =>
      let mappings := dict_set mappings id base_id in
      if negb nested then
        let '(m1', mappings, r) := _generate_leaflet_string m1 false "0" mappings in
        (DualMap base_id name t m1' m2, mappings, r)
      else
        let '(m1', mappings, r1) := _generate_leaflet_string m1 nested "0" mappings in
        match r1 with
        | inr e => (DualMap base_id name t m1' m2, mappings, raise e)
        | inl leaflet =>
            let '(m2', mappings, r2) :=
              _generate_leaflet_string m2 nested "0" mappings in
            match r2 with
            | inr e => (DualMap base_id name t m1' m2', mappings, raise e)
            | inl s2 =>
                let leaflet := leaflet ++ (Text.nl ++ s2) in
                match module_script t base_id with
                | inr e => (DualMap base_id name t m1' m2', mappings, raise e)
                | inl s =>
                    (DualMap base_id name t m1' m2', mappings, ret (leaflet ++ s))
                end
            end
        end
  | Element id name t children =>
      let mappings := dict_set mappings id base_id in
      match own_script t base_id with
      | inr e => (Element base_id name t children, mappings, raise e)
      | inl leaflet =>
          if negb nested then
            (Element base_id name t children, mappings, ret leaflet)
          else
            let '(children', mappings, r) :=
              for_children
                (fun child b mp => _generate_leaflet_string child true b mp)
                base_id 0 children leaflet mappings in
            (Element base_id name t children', mappings, r)
      end
  end.

(** ** [generate_leaflet_string] *)

(** [for k, v in mappings.items(): leaflet = leaflet.replace(k, v)] *)
Fixpoint substitute (items : Dict) (leaflet : string) : string :=
  match items with
  | [] => leaflet
  | (k, v) :: r => substitute r (Text.replace k v leaflet)
  end.

(** The node after the call, the mapping the call built, and the result. *)
Definition generate_leaflet_string_full (m : Node) (nested : bool)
    (base_id : string) : Node * Dict * Res string :=
  let '(m', mappings, r) := _generate_leaflet_string m nested base_id [] in
  match r with
  | inr e => (m', mappings, raise e)
  | inl leaflet => (m', mappings, ret (substitute mappings leaflet))
  end.

Definition generate_leaflet_string (m : Node) (nested : bool) (base_id : string)
    : Res string :=
  snd (generate_leaflet_string_full m nested base_id).

(** ** The layout of the assembled script *)

(** The text that follows a node's own snippet: for each child in insertion
    order a newline and the child's script; a child whose script raises
    [UndefinedError] or [AttributeError] adds nothing; any other exception
    ends the assembly. *)
Definition join_children (rec : Node -> string -> Res string)
    (base_id : string) : nat -> list Node -> Res string :=
  fix loop (idx : nat) (children : list Node) {struct children} :=
    match children with
    | [] => ret EmptyString
    | child :: rest =>
        match rec child (base_id ++ "_" ++ Text.str_nat idx) with
        | inl s =>
            match loop (S idx) rest with
            | inl tail => ret (Text.nl ++ s ++ tail)
            | inr e => raise e
            end
        | inr UndefinedError | inr AttributeError => loop (S idx) rest
        | inr e => raise e
        end
    end.

(** The script as the specification lays it out (a node's snippet first,
    then its children's scripts in insertion order, newline-separated), with
    no dict and no identifier written.  For a [DualMap] the two maps come
    first and the node's own snippet last. *)
Fixpoint assemble (m : Node) (nested : bool) (base_id : string) {struct m}
    : Res string :=
  match m with
  | DualMap _ _ t m1 m2 =>
      if negb nested then assemble m1 false "0"
      else
        match assemble m1 true "0" with
        | inr e => raise e
        | inl s1 =>
            match assemble m2 true "0" with
            | inr e => raise e
            | inl s2 =>
                match module_script t base_id with
                | inr e => raise e
                | inl s => ret ((s1 ++ (Text.nl ++ s2)) ++ s)
                end
            end
        end
  | Element _ _ t children =>
      match own_script t base_id with
      | inr e => raise e
      | inl s0 =>
          if negb nested then ret s0
          else
            match join_children (fun c b => assemble c true b) base_id 0 children with
            | inl tail => ret (s0 ++ tail)
            | inr e => raise e
            end
      end
  end.

(** Whether a child's outcome lets the loop over the children go on. *)
Definition goes_on (r : Res string) : bool :=
  match r with
  | inr (OtherError _) => false
  | _ => true
  end.

(** The nodes a call visits, in the order it visits them, each as the pair
    of the identifier it had and the identifier it is given. *)
Definition visited_children (rec : Node -> string -> list (string * string))
    (base_id : string) : nat -> list Node -> list (string * string) :=
  fix loop (idx : nat) (children : list Node) {struct children} :=
    match children with
    | [] => []
    | child :: rest =>
        let b := base_id ++ "_" ++ Text.str_nat idx in
        (rec child b ++
         if goes_on (assemble child true b) then loop (S idx) rest else [])%list
    end.

Fixpoint visited (m : Node) (nested : bool) (base_id : string) {struct m}
    : list (string * string) :=
  match m with
  | DualMap id _ t m1 m2 =>
      (id, base_id) ::
      if negb nested then visited m1 false "0"
      else
        (visited m1 true "0" ++
         match assemble m1 true "0" with
         | inl _ => visited m2 true "0"
         | inr _ => []
         end)%list
  | Element id _ t children =>
      (id, base_id) ::
      match own_script t base_id with
      | inr _ => []
      | inl _ =>
          if negb nested then []
          else visited_children (fun c b => visited c true b) base_id 0 children
      end
  end.

(** Writing a list of pairs into a dict, in order. *)
Definition dict_update (d : Dict) (items : list (string * string)) : Dict :=
  fold_left (fun d kv => dict_set d (fst kv) (snd kv)) items d.

(** The tree with every [_id] blanked: what is left is its structure. *)
Fixpoint erase_ids (m : Node) : Node :=
  match m with
  | Element _ name t children => Element EmptyString name t (map erase_ids children)
  | DualMap _ name t m1 m2 => DualMap EmptyString name t (erase_ids m1) (erase_ids m2)
  end.


(** [c in s] *)
Fixpoint has_char (c : ascii) (s : string) : bool :=
  match s with
  | EmptyString => false
  | String d t => Ascii.eqb c d || has_char c t
  end.

(** ** Bounds and defaults of [st_folium] *)

Definition bind {A B : Type} (x : Res A) (f : A -> Res B) : Res B :=
  match x with
  | inl a => f a
  | inr e => inr e
  end.

Notation "x <- e ;; k" := (bind e (fun x => k))
  (at level 61, e at next level, right associativity).

(** The Python values that reach the defaults: [None], a number of type [F]
    (a float or an int), a list, a dict with string keys in insertion
    order. *)
Inductive value (F : Type) : Type :=
| VNone
| VNum (x : F)
| VList (items : list (value F))
| VDict (items : list (string * value F)).

Arguments VNone {F}.
Arguments VNum {F} x.
Arguments VList {F} items.
Arguments VDict {F} items.

(** What [returned_objects : Iterable[str] | None] can be: [None]; a
    container whose [in] compares elements and can be asked again (a list, a
    tuple, a set); an iterator or generator, given by the items it has left;
    a [str], whose [in] looks for a substring. *)
Inductive Filter : Type :=
| FilterNone
| FilterList (items : list string)
| FilterIter (rest : list string)
| FilterStr (s : string).

(** [k in it] on an iterator: items are taken until one equals [k]; the
    result comes with the items that are left. *)
Fixpoint take_until (k : string) (rest : list string) : bool * list string :=
  match rest with
  | [] => (false, [])
  | x :: r => if String.eqb x k then (true, r) else take_until k r
  end.

(** [returned_objects is None or k in returned_objects], with the filter as
    the test leaves it. *)
Definition member (f : Filter) (k : string) : bool * Filter :=
  match f with
  | FilterNone => (true, f)
  | FilterList l => (existsb (String.eqb k) l, f)
  | FilterIter rest => let '(b, rest') := take_until k rest in (b, FilterIter rest')
  | FilterStr s => (Text.occurs k s, f)
  end.

Section Defaults.

Context {F : Type}.

(** What [st_folium] asks of [fig] after the script is built: the call
    [fig.get_bounds()], and [fig.options] when the attribute exists. *)
Record Fig : Type := {
  get_bounds : Res (value F);
  options : option (list (string * value F))
}.

(** [v[i]] on a list. *)
Definition getitem (v : value F) (i : nat) : Res (value F) :=
  match v with
  | VList items =>
      match nth_error items i with
      | Some x => ret x
      | None => raise (OtherError "IndexError")
      end
  | _ => raise (OtherError "TypeError")
  end.

(** [d.get(k)] *)
Fixpoint dict_get_value (d : list (string * value F)) (k : string) : value F :=
  match d with
  | [] => VNone
  | (k', v) :: r => if String.eqb k' k then v else dict_get_value r k
  end.

Definition bounds_to_dict (bounds_list : value F) : Res (value F) :=
  match bounds_list with
  | VList [southwest; northeast] =>
      sw0 <- getitem southwest 0 ;;
      sw1 <- getitem southwest 1 ;;
      ne0 <- getitem northeast 0 ;;
      ne1 <- getitem northeast 1 ;;
      ret (VDict [("_southWest", VDict [("lat", sw0); ("lng", sw1)]);
                  ("_northEast", VDict [("lat", ne0); ("lng", ne1)])])
  | VList _ => raise (OtherError "ValueError")
  | _ => raise (OtherError "TypeError")
  end.

(** The bounds dict with no coordinates. *)
Definition null_bounds : value F :=
  VDict [("_southWest", VDict [("lat", VNone); ("lng", VNone)]);
         ("_northEast", VDict [("lat", VNone); ("lng", VNone)])].

(** [try: bounds = fig.get_bounds() except AttributeError: ...] *)
Definition bounds_of (fig : Fig) : Res (value F) :=
  match get_bounds fig with
  | inr AttributeError => ret (VList [VList [VNone; VNone]; VList [VNone; VNone]])
  | r => r
  end.

Definition _defaults (fig : Fig) : Res (list (string * value F)) :=
  bounds <- bounds_of fig ;;
  b <- bounds_to_dict bounds ;;
  ret [("last_clicked", VNone);
       ("last_object_clicked", VNone);
       ("all_drawings", VNone);
       ("last_active_drawing", VNone);
       ("bounds", b);
       ("zoom", match options fig with
                | Some o => dict_get_value o "zoom"
                | None => VDict []
                end);
       ("last_circle_radius", VNone);
       ("last_circle_polygon", VNone)].

(** [returned_objects is None or k in returned_objects] *)
Definition returned (returned_objects : option (list string)) (k : string) : bool :=
  match returned_objects with
  | None => true
  | Some l => existsb (String.eqb k) l
  end.

Definition defaults (fig : Fig) (returned_objects : option (list string))
    : Res (list (string * value F)) :=
  d <- _defaults fig ;;
  ret (filter (fun kv => returned returned_objects (fst kv)) d).

(** The filter against any iterable, test by test: each [k in
    returned_objects] leaves the filter as the next test finds it. *)
Fixpoint keep_returned (f : Filter) (d : list (string * value F))
    : list (string * value F) :=
  match d with
  | [] => []
  | kv :: r =>
      let '(b, f') := member f (fst kv) in
      if b then kv :: keep_returned f' r else keep_returned f' r
  end.

(** The defaults for a filter of any of these kinds. *)
Definition defaults_from (fig : Fig) (returned_objects : Filter)
    : Res (list (string * value F)) :=
  d <- _defaults fig ;;
  ret (keep_returned returned_objects d).

End Defaults.

Arguments Fig F : clear implicits.

Definition default_keys : list string :=
  ["last_clicked"; "last_object_clicked"; "all_drawings"; "last_active_drawing";
   "bounds"; "zoom"; "last_circle_radius"; "last_circle_polygon"].

(** ** Outcomes *)

Definition script_of (o : Outcome) : Res string := snd o.
Definition dict_of (o : Outcome) : Dict := snd (fst o).
Definition node_of (o : Outcome) : Node := fst (fst o).

(** What a call does to the dict and what it returns, for one node. *)
Definition call_ok (c : Node) : Prop :=
  forall nested b mp,
    script_of (_generate_leaflet_string c nested b mp) = assemble c nested b
    /\ dict_of (_generate_leaflet_string c nested b mp)
       = dict_update mp (visited c nested b)
    /\ node_id (node_of (_generate_leaflet_string c nested b mp)) = b.

(** The recursive call of the loop over the children. *)
Definition child_call : Node -> string -> Dict -> Outcome :=
  fun child b mp => _generate_leaflet_string child true b mp.

(** ** Sample inputs *)

(** A template that renders the same text whatever the identifier. *)
Definition fixed_template (text : string) : Template :=
  {| module_script := fun _ => ret text; render := fun _ => ret text |}.

(** A template that declares a variable named after the identifier. *)
Definition var_template (name : string) : Template :=
  {| module_script := fun id => ret ("var " ++ name ++ "_" ++ id ++ ";");
     render := fun id => ret ("var " ++ name ++ "_" ++ id ++ ";") |}.

(** A template whose [script] macro raises [e] and whose raw body renders
    [raw]. *)
Definition failing_template (e : exn) (raw : string) : Template :=
  {| module_script := fun _ => raise e; render := fun _ => ret raw |}.

(** Two scripts for the same tile layer: the variable's suffix and the tile
    path segment differ. *)
Definition script_1a : string :=
  "var t_1a = L.tileLayer('https://e.com/v1/maps/ab-1/tiles');".
Definition script_2b : string :=
  "var t_2b = L.tileLayer('https://e.com/v1/maps/cd-2/tiles');".

(** The feature group as [st_folium] prepares it: [_id] set to
    ["feature_group"], then stabilised with [base_id="feature_group"]. *)
Definition feature_group_demo : Node :=
  Element "feature_group" "FeatureGroup" (var_template "feature_group")
    [Element "c3" "Marker" (var_template "marker") []].

(** A node and its child that carry the same identifier. *)
Definition twins : Node :=
  Element "x" "Map" (fixed_template "map")
    [Element "x" "Marker" (fixed_template "marker") []].



(** A dual map: its own script is ["S"], its two maps render ["A"] and
    ["B"]. *)
Definition dual_demo : Node :=
  DualMap "d" "DualMap" (fixed_template "S")
    (Element "p" "Map" (fixed_template "A") [])
    (Element "q" "Map" (fixed_template "B") []).

(** A dual map whose own script raises [UndefinedError]. *)
Definition dual_undefined : Node :=
  DualMap "d" "DualMap" (failing_template UndefinedError "raw")
    (Element "p" "Map" (fixed_template "A") [])
    (Element "q" "Map" (fixed_template "B") []).

(** A map with a marker that carries a popup whose script raises
    [UndefinedError], followed by a second marker. *)
Definition map_demo : Node :=
  Element "AB" "Map" (fixed_template "map")
    [Element "CD" "Marker" (fixed_template "marker")
       [Element "EF" "Popup" (failing_template UndefinedError "popup") []];
     Element "GH" "Marker" (fixed_template "second") []].

(** A map whose first child raises [e] with no fallback. *)
Definition map_with_failing_child (e : exn) : Node :=
  Element "AB" "Map" (fixed_template "map")
    [Element "CD" "Layer"
       {| module_script := fun _ => raise e; render := fun _ => raise e |} [];
     Element "GH" "Marker" (fixed_template "second") []].

(** A map whose [get_bounds] raises [AttributeError] and whose options hold a
    zoom of 5. *)
Definition fig_no_bounds : Fig Z :=
  {| get_bounds := raise AttributeError;
     options := Some [("zoom", VNum 5%Z)] |}.

(** A map with bounds [[[1, 2], [3, 4]]] and no [options] attribute. *)
Definition fig_bounded : Fig Z :=
  {| get_bounds := ret (VList [VList [VNum 1%Z; VNum 2%Z]; VList [VNum 3%Z; VNum 4%Z]]);
     options := None |}.

(** ** [st_folium] *)

(** [m._id = i] *)
Definition set_id (m : Node) (i : string) : Node :=
  match m with
  | Element _ name t children => Element i name t children
  | DualMap _ name t m1 m2 => DualMap i name t m1 m2
  end.

(** The loop over [children[1:]] of the root: the [html] macro of each child
    after the first, a newline after each; a child whose macro raises adds
    nothing.  A child is given by what its
    [_template.module.html()] does. *)
Definition collect_html (children : list (Res string)) : string :=
  fold_left
    (fun html child =>
       match child with
       | inl h => html ++ (h ++ Text.nl)
       | inr _ => html
       end)
    (tl children) EmptyString.

(** The two edits of the script: the popup is removed, and the declaration
    of [drawnItems] is appended when the script does not mention it. *)
Definition without_popup (leaflet : string) : string :=
  Text.replace "alert(coords);" "" leaflet.

Definition with_drawn_items (leaflet : string) : string :=
  if negb (Text.occurs "drawnItems" leaflet)
  then leaflet ++ (Text.nl ++ "var drawnItems = [];")
  else leaflet.

(** The text appended to the feature group's script. *)
Definition add_layer_js : string :=
  Text.nl ++ "        map_div.addLayer(feature_group_feature_group);"
  ++ Text.nl ++ "        window.feature_group = feature_group_feature_group;"
  ++ Text.nl ++ "        ".

(** The arguments [st_folium] computes for the component; [height], [width],
    [returned_objects], [zoom] and [center] are passed on as given. *)
Record Payload (F : Type) : Type := {
  script : string;
  html : string;
  id : string;
  key : string;
  default : list (string * value F);
  feature_group : option string
}.

Arguments script {F} _.
Arguments html {F} _.
Arguments id {F} _.
Arguments key {F} _.
Arguments default {F} _.
Arguments feature_group {F} _.

(** [if not (isinstance(fig, folium.Map) or isinstance(fig, DualMap)):
    fig = list(fig._children.values())[0]] *)
Definition displayed_map (is_map : Node -> bool) (fig : Node) : Res Node :=
  match fig with
  | DualMap _ _ _ _ _ => ret fig
  | Element _ _ _ children =>
      if is_map fig then ret fig
      else match children with
           | first :: _ => ret first
           | [] => raise (OtherError "IndexError")
           end
  end.

(** [st_folium] from the line after [fig.render()].  [is_map m] is
    [isinstance(m, folium.Map)]; [root_children] gives, for each child of
    [fig.get_root()], what its [html] macro does; [view] is [get_bounds] and
    [options] of the map that is displayed.  [add_to(fig)] adds the feature
    group to the map's children, which nothing afterwards reads. *)
Definition st_folium {F : Type} (is_map : Node -> bool)
    (root_children : list (Res string)) (view : Fig F)
    (fig : Node) (key : option string)
    (returned_objects : option (list string))
    (feature_group_to_add : option Node) : Res (Payload F) :=
  fig <- displayed_map is_map fig ;;
  let '(fig, _, r) := generate_leaflet_string_full fig true "map_div" in
  leaflet <- r ;;
  let html := collect_html root_children in
  let '(m_id, leaflet) :=
    match fig with
    | DualMap _ _ _ m1 m2 =>
        (get_full_id m1, Text.replace (get_full_id m2) "map_div2" leaflet)
    | Element _ _ _ _ => (get_full_id fig, leaflet)
    end in
  let leaflet := without_popup leaflet in
  let leaflet := with_drawn_items leaflet in
  defaults <- defaults view returned_objects ;;
  fg <- match feature_group_to_add with
        | None => ret (None, m_id)
        | Some feature_group_to_add =>
            let feature_group_to_add := set_id feature_group_to_add "feature_group" in
            feature_group_string <-
              generate_leaflet_string feature_group_to_add true "feature_group" ;;
            let m_id := get_full_id fig in
            let feature_group_string :=
              Text.replace m_id "map_div" feature_group_string in
            ret (Some (feature_group_string ++ add_layer_js), m_id)
        end ;;
  ret {| script := leaflet;
         html := html;
         id := snd fg;
         key := generate_js_hash leaflet key;
         default := defaults;
         feature_group := fst fg |}.

(** A decimal digit. *)
Definition is_digit (c : ascii) : bool := Re.in_range "0" "9" c.

(** [v] is [b] or [b] followed by an underscore and more. *)
Definition under (b v : string) : Prop :=
  v = b \/ exists y, v = b ++ "_" ++ y.

(** [v] is [b_j] for some index [j] from [lo] on, followed by a text that
    does not go on with a digit. *)
Definition child_id (b : string) (lo : nat) (v : string) : Prop :=
  exists j x, lo <= j /\ v = b ++ "_" ++ Text.str_nat j ++ x
              /\ starts_outside is_digit x = true.

(** ** The children's scripts, one by one *)





(** A map with a control whose snippet names the map by the identifier the
    map had when the control was rendered, and a marker. *)
Definition control_map : Node :=
  Element "5f9d" "Map" (var_template "map")
    [Element "c0de" "Control" (fixed_template "L.control(map_5f9d);") [];
     Element "77aa" "Marker" (var_template "marker") []].

(** ** Words of a script *)

(** A script read against a class [idc] of characters (those that
    identifiers are made of): a maximal run of such characters is a word,
    any other character stands alone. *)
Inductive token : Type :=
| Word (w : string)
| Sep (c : ascii).

(** The longest prefix in [cls]. *)
Fixpoint take_class (cls : ascii -> bool) (s : string) : string :=
  match s with
  | EmptyString => EmptyString
  | String c t => if cls c then String c (take_class cls t) else EmptyString
  end.

Fixpoint tokens_scan (fuel : nat) (idc : ascii -> bool) (s : string) : list token :=
  match fuel with
  | O => []
  | S f =>
      match s with
      | EmptyString => []
      | String c t =>
          if idc c
          then Word (take_class idc s) :: tokens_scan f idc (Re.skip_class idc s)
          else Sep c :: tokens_scan f idc t
      end
  end.

Definition tokens (idc : ascii -> bool) (s : string) : list token :=
  tokens_scan (String.length s) idc s.

Definition token_text (tok : token) : string :=
  match tok with
  | Word w => w
  | Sep c => String c EmptyString
  end.

Fixpoint flatten (l : list token) : string :=
  match l with
  | [] => EmptyString
  | tok :: r => token_text tok ++ flatten r
  end.

(** A word is in order for the keys [K] when the only key that occurs in it
    is the word itself. *)
Definition word_ok (K : list string) (w : string) : bool :=
  forallb (fun k => negb (Text.occurs k w) || String.eqb k w) K.

(** In the script [s], the keys occur as whole words only. *)
Definition whole_words (idc : ascii -> bool) (K : list string) (s : string) : bool :=
  forallb (fun tok => match tok with Word w => word_ok K w | Sep _ => true end)
          (tokens idc s).

(** Every word that is a key of [M] gives way to the words of its value,
    all keys at once. *)
Definition expand (idc : ascii -> bool) (M : Dict) (l : list token) : list token :=
  flat_map (fun tok =>
              match tok with
              | Word w =>
                  match dict_get M w with
                  | Some v => tokens idc v
                  | None => [Word w]
                  end
              | Sep c => [Sep c]
              end) l.

(** The script with every word that is a key of [M] replaced by its value,
    all keys at once. *)
Definition resolve (idc : ascii -> bool) (M : Dict) (s : string) : string :=
  flatten (expand idc M (tokens idc s)).




(** The token list is one that [tokens] can give: words are non-empty runs
    of [idc] characters, separators are outside [idc], and no word follows
    a word. *)
Definition starts_sep (l : list token) : Prop :=
  match l with
  | Word _ :: _ => False
  | _ => True
  end.

Fixpoint well_formed (idc : ascii -> bool) (l : list token) : Prop :=
  match l with
  | [] => True
  | Sep c :: r => idc c = false /\ well_formed idc r
  | Word w :: r =>
      w <> EmptyString /\ all_in idc w = true /\ starts_sep r /\ well_formed idc r
  end.

(** The character class of lowercase hexadecimal digits, of which folium's
    identifiers are made. *)
Definition hex_char (c : ascii) : bool :=
  Re.in_range "0" "9" c || Re.in_range "a" "f" c.

(** Every key is a word: it is not empty and is made of [idc] characters. *)
Definition keys_are_words (idc : ascii -> bool) (M : Dict) : bool :=
  forallb (fun k => negb (String.eqb k EmptyString) && all_in idc k) (keys M).

(** No key occurs in a value: no original identifier occurs in a stable
    one. *)
Definition ids_apart (M : Dict) : bool :=
  forallb (fun k => forallb (fun v => negb (Text.occurs k v)) (map snd M)) (keys M).

(** What the substitution pass needs of the mapping and of the assembled
    script to come out as a renaming of identifiers. *)
Definition tidy (idc : ascii -> bool) (M : Dict) (raw : string) : bool :=
  keys_are_words idc M && whole_words idc (keys M) raw && ids_apart M.

(** ** Two runs *)






(** A map whose identifier stands inside a longer word of its snippet. *)
Definition inner_id_map : Node :=
  Element "x0" "Map" (fixed_template "var xx0;") [].

(** A map that is given the identifier it already has. *)
Definition same_id_map : Node :=
  Element "a1" "Map" (var_template "map") [].

(** A map whose identifier is the empty string. *)
Definition empty_id_map : Node :=
  Element EmptyString "Map" (fixed_template "ab") [].

(** ** Measures of a tree *)

(** No [DualMap] anywhere in the tree. *)
Fixpoint dual_free (m : Node) : bool :=
  match m with
  | Element _ _ _ children => forallb dual_free children
  | DualMap _ _ _ _ _ => false
  end.

Fixpoint count_nodes (m : Node) : nat :=
  match m with
  | Element _ _ _ children => S (list_sum (map count_nodes children))
  | DualMap _ _ _ m1 m2 => S (count_nodes m1 + count_nodes m2)
  end.

(** A map whose [get_bounds] raises [KeyError]. *)
Definition fig_broken : Fig Z :=
  {| get_bounds := raise (OtherError "KeyError"); options := None |}.

(** A map with children, as [st_folium] receives it, and the same map inside
    a figure. *)
Definition map_fig : Node :=
  Element "5f9d" "Map" (var_template "map")
    [Element "77aa" "Marker" (var_template "marker") []].


Definition by_name_is_map (m : Node) : bool := String.eqb (node_name m) "Map".

(** * Properties *)

(** ** The models against known values *)

Example sha256_abc :
  Sha256.hexdigest "abc"
  = "ba7816bf8f01cfea414140de5dae2223b00361a396177a9cb410ff61f20015ad".
Proof. vm_compute. reflexivity. Qed.

Example sha256_empty :
  Sha256.hexdigest ""
  = "e3b0c44298fc1c149afbf4c8996fb92427ae41e4649b934ca495991b7852b855".
Proof. vm_compute. reflexivity. Qed.

Example sha256_two_blocks :
  Sha256.hexdigest "abcdbcdecdefdefgefghfghighijhijkijkljklmklmnlmnomnopnopq"
  = "248d6a61d20638b8e5c026930c3e6039a33ce45964ff2167f6ecedd419db06c1".
Proof. vm_compute. reflexivity. Qed.

Example sub_pattern_marker :
  Re.sub Re.pattern "var marker_5f9d46 = x_1;_" = "var marker = x;_".
Proof. reflexivity. Qed.

Example sub_url_pattern_tiles :
  Re.sub Re.url_pattern "a/maps/ab-1/tiles maps//x maps/a_/"
  = "a/tiles maps//x maps/a_/".
Proof. reflexivity. Qed.

Example replace_leftmost : Text.replace "aa" "b" "aaaaa" = "bba".
Proof. reflexivity. Qed.

Example replace_empty_old : Text.replace "" "-" "abc" = "-a-b-c-".
Proof. reflexivity. Qed.

(** ** Re-mount key *)

(** C10: for every script [s], [generate_js_hash(s, None)] is the digest of
    the script with its identifier suffixes stripped, followed by the four
    characters [None], with the tile path segments stripped from that, and
    followed by [None] once more; [generate_js_hash(s, "None")] is the same
    digest.  A string key is appended as it is, in the same two places.  On
    the script [var x;] the hashed text is [var x;NoneNone]. *)
Theorem generate_js_hash_None_is_string_None (s : string) :
  generate_js_hash s None
  = Sha256.hexdigest
      (Re.sub Re.url_pattern (Re.sub Re.pattern s ++ "None") ++ "None")
  /\ generate_js_hash s (Some "None") = generate_js_hash s None
  /\ (forall k,
        generate_js_hash s (Some k)
        = Sha256.hexdigest (Re.sub Re.url_pattern (Re.sub Re.pattern s ++ k) ++ k))
  /\ generate_js_hash "var x;" None = Sha256.hexdigest "var x;NoneNone"
  /\ generate_js_hash "var x;" None
     = "11f5cc12138ffe5aa18bffded8ea1a2e99fe39058d63585dea3c13228dcc7d57"
  /\ generate_js_hash "var x;" None <> generate_js_hash "var x;" (Some "k").
Proof.
  split; [reflexivity|]. split; [reflexivity|]. split; [intros k; reflexivity|].
  split; [vm_compute; reflexivity|]. split; [vm_compute; reflexivity|].
  vm_compute. discriminate.
Qed.

(** ** Bounds and defaults *)

Section DefaultsFacts.

Context {F : Type}.

(** C8: when [fig.get_bounds()] raises [AttributeError], the bounds become
    [[[None, None], [None, None]]] and the ["bounds"] default is the dict
    with null coordinates in both corners. *)
Theorem bounds_fallback (fig : Fig F) :
  get_bounds fig = raise AttributeError ->
  (bounds <- bounds_of fig ;; bounds_to_dict bounds) = ret null_bounds
  /\ exists d, _defaults fig = ret d
       /\ In ("bounds", null_bounds) d
       /\ forall v, In ("bounds", v) d -> v = null_bounds.
Proof.
  intros Hb. unfold _defaults, bounds_of. rewrite Hb. cbn.
  split; [reflexivity|].
  eexists. split; [reflexivity|]. split.
  - cbn. tauto.
  - intros v Hin. cbn in Hin.
    repeat (destruct Hin as [Hin|Hin]; [inversion Hin; try reflexivity|]).
    contradiction.
Qed.

Lemma defaults_keys (fig : Fig F) d0 :
  _defaults fig = ret d0 -> map fst d0 = default_keys.
Proof.
  unfold _defaults. destruct (bounds_of fig) as [b|e]; cbn; [|discriminate].
  destruct (bounds_to_dict b) as [bd|e]; cbn; [|discriminate].
  intros H. inversion H. reflexivity.
Qed.

Lemma map_fst_filter (ro : option (list string)) (d : list (string * value F)) :
  map fst (filter (fun kv => returned ro (fst kv)) d)
  = filter (returned ro) (map fst d).
Proof.
  induction d as [|[k v] d IH]; cbn; [reflexivity|].
  destruct (returned ro k); cbn; rewrite IH; reflexivity.
Qed.

Lemma keep_returned_repeatable (f : Filter) (d : list (string * value F)) :
  (forall k, snd (member f k) = f) ->
  keep_returned f d = filter (fun kv => fst (member f (fst kv))) d.
Proof.
  intros Hf. induction d as [|kv d IH]; [reflexivity|]. cbn [keep_returned filter].
  specialize (Hf (fst kv)). destruct (member f (fst kv)) as [b f'].
  cbn [fst snd] in *. subst f'. rewrite IH. reflexivity.
Qed.

(** C9 (amended): for a filter that is [None] or a container whose [in]
    compares elements and can be asked again (a list, a tuple, a set), the
    emitted defaults hold exactly the default keys that are in it, all of
    them for [None], and only ["zoom"] for [["zoom"]]. *)
Theorem defaults_filtered (fig : Fig F) (returned_objects : Filter) d0 :
  _defaults fig = ret d0 ->
  (returned_objects = FilterNone \/ exists l, returned_objects = FilterList l) ->
  exists d, defaults_from fig returned_objects = ret d
    /\ map fst d = filter (fun k => fst (member returned_objects k)) default_keys
    /\ (forall k, In k (map fst d) <->
          In k default_keys
          /\ match returned_objects with
             | FilterList l => In k l
             | _ => True
             end)
    /\ (returned_objects = FilterNone ->
        map fst d = default_keys /\ defaults fig None = ret d)
    /\ (forall l, returned_objects = FilterList l -> defaults fig (Some l) = ret d)
    /\ (returned_objects = FilterList ["zoom"] -> map fst d = ["zoom"]).
Proof.
  intros H0 Hf. unfold defaults_from, defaults. rewrite H0. cbn [bind].
  eexists. split; [reflexivity|].
  assert (Hrep : forall k, snd (member returned_objects k) = returned_objects)
    by (destruct Hf as [->|[l ->]]; reflexivity).
  rewrite (keep_returned_repeatable _ _ Hrep).
  assert (Hk : map fst (filter (fun kv => fst (member returned_objects (fst kv))) d0)
               = filter (fun k => fst (member returned_objects k)) default_keys).
  { rewrite <- (defaults_keys fig d0 H0). clear.
    induction d0 as [|[k v] d IH]; cbn; [reflexivity|].
    destruct (fst (member returned_objects k)); cbn; rewrite IH; reflexivity. }
  split; [exact Hk|]. split; [|split; [|split]].
  - intros k. rewrite Hk, filter_In. split; intros [Hin Hr]; split; trivial.
    + destruct Hf as [->|[l ->]]; [exact I|].
      cbn in Hr. apply existsb_exists in Hr. destruct Hr as [x [Hx Hkx]].
      apply String.eqb_eq in Hkx. subst. exact Hx.
    + destruct Hf as [->|[l ->]]; [reflexivity|].
      cbn. apply existsb_exists. exists k. split; [exact Hr|apply String.eqb_refl].
  - intros ->. split; [rewrite Hk; reflexivity|].
    cbn [returned member fst]. reflexivity.
  - intros l ->. cbn [returned member fst]. reflexivity.
  - intros ->. rewrite Hk. reflexivity.
Qed.

End DefaultsFacts.

(** C9 as stated fails for a filter that is an iterator: the first test,
    ["last_clicked" in returned_objects], takes every item, so nothing is
    left for ["zoom"] and the defaults come out empty; and for a filter that
    is a [str] the test is a substring test, so ["zoom"] is emitted for the
    filter ["my zoom level"], of which it is no element. *)
Lemma one_shot_filter_loses_its_members :
  defaults_from fig_bounded (FilterIter ["zoom"]) = ret []
  /\ defaults_from fig_bounded (FilterIter ["bounds"; "zoom"]) = ret []
  /\ (exists d, defaults_from fig_bounded (FilterStr "my zoom level") = ret d
                /\ map fst d = ["zoom"]).
Proof.
  split; [reflexivity|]. split; [reflexivity|].
  eexists. split; reflexivity.
Qed.

Lemma bounds_fallback_witness :
  get_bounds fig_no_bounds = raise AttributeError
  /\ (bounds <- bounds_of fig_no_bounds ;; bounds_to_dict bounds) = ret null_bounds.
Proof.
  split; [reflexivity|].
  apply (bounds_fallback fig_no_bounds). reflexivity.
Defined.

Lemma defaults_filtered_witness :
  exists d, defaults_from fig_bounded (FilterList ["zoom"]) = ret d
            /\ map fst d = ["zoom"].
Proof.
  destruct (defaults_filtered fig_bounded (FilterList ["zoom"]) _ eq_refl
              (or_intror (ex_intro _ ["zoom"] eq_refl)))
    as [d [Hd [_ [_ [_ [_ Hz]]]]]].
  exists d. split; [exact Hd|]. apply Hz. reflexivity.
Defined.

(** ** Strings *)

Lemma app_assoc_s (a b c : string) : (a ++ b) ++ c = a ++ (b ++ c).
Proof. induction a as [|x a IH]; cbn; [reflexivity | rewrite IH; reflexivity]. Qed.

Lemma app_nil_r_s (a : string) : a ++ "" = a.
Proof. induction a as [|x a IH]; cbn; [reflexivity | rewrite IH; reflexivity]. Qed.

Lemma length_app_s (a b : string) :
  String.length (a ++ b) = String.length a + String.length b.
Proof. induction a as [|x a IH]; cbn; [reflexivity | rewrite IH; reflexivity]. Qed.

(** ** The traversal *)

Lemma Node_nested_ind (P : Node -> Prop) :
  (forall id name t cs, Forall P cs -> P (Element id name t cs)) ->
  (forall id name t m1 m2, P m1 -> P m2 -> P (DualMap id name t m1 m2)) ->
  forall m, P m.
Proof.
  intros HE HD. fix IH 1. intros [id name t cs | id name t m1 m2].
  - apply HE. induction cs as [|c cs IHcs]; constructor; [apply IH | exact IHcs].
  - apply HD; apply IH.
Qed.

Lemma dict_update_app d l1 l2 :
  dict_update d (l1 ++ l2)%list = dict_update (dict_update d l1) l2.
Proof. unfold dict_update. apply fold_left_app. Qed.

Lemma for_children_layout base cs :
  Forall call_ok cs ->
  forall idx leaflet mp,
    let o := for_children (fun c b m => _generate_leaflet_string c true b m)
               base idx cs leaflet mp in
    snd o = match join_children (fun c b => assemble c true b) base idx cs with
            | inl tail => ret (leaflet ++ tail)
            | inr e => raise e
            end
    /\ snd (fst o)
       = dict_update mp
           (visited_children (fun c b => visited c true b) base idx cs).
Proof.
  induction 1 as [|c cs Hc Hcs IH]; intros idx leaflet mp;
    cbn [for_children join_children visited_children].
  - cbn. rewrite app_nil_r_s. split; reflexivity.
  - set (b := base ++ "_" ++ Text.str_nat idx).
    destruct (Hc true b mp) as [Hs [Hd _]].
    unfold script_of, dict_of in Hs, Hd.
    destruct (_generate_leaflet_string c true b mp) as [[c' mp1] r] eqn:E.
    cbn [fst snd] in Hs, Hd. rewrite <- Hs, dict_update_app, <- Hd.
    destruct r as [s|[| |n]]; cbn [goes_on].
    + specialize (IH (S idx) (leaflet ++ (Text.nl ++ s)) mp1). cbn zeta in IH.
      destruct (for_children _ base (S idx) cs (leaflet ++ (Text.nl ++ s)) mp1)
        as [[cs' mp2] r2]. cbn [fst snd] in *. destruct IH as [IH1 IH2].
      split; [|exact IH2]. rewrite IH1.
      destruct (join_children _ base (S idx) cs) as [tail|e]; [|reflexivity].
      unfold ret. f_equal. rewrite !app_assoc_s. reflexivity.
    + specialize (IH (S idx) leaflet mp1). cbn zeta in IH.
      destruct (for_children _ base (S idx) cs leaflet mp1) as [[cs' mp2] r2].
      cbn [fst snd] in *. exact IH.
    + specialize (IH (S idx) leaflet mp1). cbn zeta in IH.
      destruct (for_children _ base (S idx) cs leaflet mp1) as [[cs' mp2] r2].
      cbn [fst snd] in *. exact IH.
    + cbn [fst snd]. split; reflexivity.
Qed.

Lemma all_calls_ok (m : Node) : call_ok m.
Proof.
  induction m as [id name t cs IH | id name t m1 m2 IH1 IH2] using Node_nested_ind;
    intros nested b mp; unfold script_of, dict_of, node_of;
    cbn [_generate_leaflet_string assemble visited].
  - destruct (own_script t b) as [s0|e]; [|repeat split; reflexivity].
    destruct nested; cbn [negb]; [|repeat split; reflexivity].
    pose proof (for_children_layout b cs IH 0 s0 (dict_set mp id b)) as H.
    cbn zeta in H.
    destruct (for_children _ b 0 cs s0 (dict_set mp id b)) as [[cs' mp'] r].
    cbn [fst snd] in *. destruct H as [H1 H2]. repeat split.
    + rewrite H1. destruct (join_children _ b 0 cs); reflexivity.
    + rewrite H2. reflexivity.
  - destruct nested; cbn [negb].
    + destruct (IH1 true "0" (dict_set mp id b)) as [Hs1 [Hd1 _]].
      unfold script_of, dict_of in Hs1, Hd1.
      destruct (_generate_leaflet_string m1 true "0" (dict_set mp id b))
        as [[m1' mp1] r1]. cbn [fst snd] in Hs1, Hd1. rewrite <- Hs1.
      change (dict_update mp ((id, b) :: ?l)) with (dict_update (dict_set mp id b) l).
      rewrite dict_update_app, <- Hd1.
      destruct r1 as [s1|e]; [|repeat split; reflexivity].
      destruct (IH2 true "0" mp1) as [Hs2 [Hd2 _]].
      unfold script_of, dict_of in Hs2, Hd2.
      destruct (_generate_leaflet_string m2 true "0" mp1) as [[m2' mp2] r2].
      cbn [fst snd] in Hs2, Hd2. rewrite <- Hs2, <- Hd2.
      destruct r2 as [s2|e]; [|repeat split; reflexivity].
      destruct (module_script t b); repeat split; reflexivity.
    + destruct (IH1 false "0" (dict_set mp id b)) as [Hs1 [Hd1 _]].
      unfold script_of, dict_of in Hs1, Hd1.
      destruct (_generate_leaflet_string m1 false "0" (dict_set mp id b))
        as [[m1' mp1] r1]. cbn [fst snd] in *. repeat split; assumption.
Qed.

(** The script a call returns is the layout [assemble] describes; it depends
    on neither the dict nor any identifier in the tree. *)
Lemma script_is_assemble m nested b mp :
  snd (_generate_leaflet_string m nested b mp) = assemble m nested b.
Proof. apply (all_calls_ok m). Qed.

(** The dict a call leaves is the dict it was given with one assignment per
    visited node, in visiting order. *)
Lemma dict_is_visited m nested b mp :
  snd (fst (_generate_leaflet_string m nested b mp))
  = dict_update mp (visited m nested b).
Proof. apply (all_calls_ok m). Qed.

Lemma root_gets_base_id m nested b mp :
  node_id (fst (fst (_generate_leaflet_string m nested b mp))) = b.
Proof. apply (all_calls_ok m). Qed.

(** ** Recovery from a failing snippet *)

(** C7 as stated fails on a dual map: its own script is rendered outside any
    [try], so a [UndefinedError] from it is raised to the caller although the
    raw template body would render. *)
Lemma dual_map_has_no_fallback :
  module_script (failing_template UndefinedError "raw") "0" = raise UndefinedError
  /\ render (failing_template UndefinedError "raw") "0" = ret "raw"
  /\ snd (_generate_leaflet_string dual_undefined true "0" []) = raise UndefinedError
  /\ generate_leaflet_string dual_undefined true "0" = raise UndefinedError.
Proof. repeat split; reflexivity. Qed.

(** C7 (amended): for every node that is not a dual map, when the script
    macro raises [UndefinedError] the call goes on with what the raw template
    body renders with [this=m, kwargs={}]: that text is the node's snippet,
    and only a failure of the raw rendering itself is raised. *)
Theorem undefined_falls_back_to_raw_template
    id name t children base mp :
  module_script t base = raise UndefinedError ->
  (forall raw, render t base = ret raw ->
     _generate_leaflet_string (Element id name t children) false base mp
     = (Element base name t children, dict_set mp id base, ret raw)
     /\ _generate_leaflet_string (Element id name t children) true base mp
        = (let '(children', mappings, r) :=
             for_children child_call base 0 children raw (dict_set mp id base) in
           (Element base name t children', mappings, r)))
  /\ (forall e nested, render t base = raise e ->
        _generate_leaflet_string (Element id name t children) nested base mp
        = (Element base name t children, dict_set mp id base, raise e)).
Proof.
  intros Hu. split.
  - intros raw Hr. cbn [_generate_leaflet_string]. unfold own_script.
    rewrite Hu, Hr. cbn [negb]. split; reflexivity.
  - intros e nested Hr. cbn [_generate_leaflet_string]. unfold own_script.
    rewrite Hu, Hr. reflexivity.
Qed.

Lemma undefined_falls_back_to_raw_template_witness :
  _generate_leaflet_string
    (Element "EF" "Popup" (failing_template UndefinedError "popup") [])
    false "0_0_0" []
  = (Element "0_0_0" "Popup" (failing_template UndefinedError "popup") [],
     [("EF", "0_0_0")], ret "popup").
Proof.
  apply (undefined_falls_back_to_raw_template "EF" "Popup"
           (failing_template UndefinedError "popup") [] "0_0_0" []);
    reflexivity.
Defined.

(** ** A child that fails *)

Lemma for_children_app rec base pre post :
  forall idx leaflet mp,
    for_children rec base idx (pre ++ post) leaflet mp
    = (let '(pre', mp1, r) := for_children rec base idx pre leaflet mp in
       match r with
       | inl l1 =>
           let '(post', mp2, r2) :=
             for_children rec base (idx + List.length pre) post l1 mp1 in
           ((pre' ++ post')%list, mp2, r2)
       | inr e => ((pre' ++ post)%list, mp1, raise e)
       end).
Proof.
  induction pre as [|c pre IH]; intros idx leaflet mp.
  - cbn [for_children List.app List.length ret raise]. rewrite Nat.add_0_r.
    destruct (for_children rec base idx post leaflet mp) as [[post' mp2] r2].
    reflexivity.
  - cbn [for_children List.app List.length ret raise].
    destruct (rec c (base ++ "_" ++ Text.str_nat idx) mp) as [[c' mp1] r].
    replace (idx + S (List.length pre)) with (S idx + List.length pre) by lia.
    destruct r as [s|[| |n]]; try rewrite IH.
    + destruct (for_children rec base (S idx) pre _ mp1) as [[pre' mp2] [l1|e]].
      * destruct (for_children rec base _ post l1 mp2) as [[post' mp3] r3].
        reflexivity.
      * reflexivity.
    + destruct (for_children rec base (S idx) pre _ mp1) as [[pre' mp2] [l1|e]].
      * destruct (for_children rec base _ post l1 mp2) as [[post' mp3] r3].
        reflexivity.
      * reflexivity.
    + destruct (for_children rec base (S idx) pre _ mp1) as [[pre' mp2] [l1|e]].
      * destruct (for_children rec base _ post l1 mp2) as [[post' mp3] r3].
        reflexivity.
      * reflexivity.
    + reflexivity.
Qed.

(** C6: when the call for a child raises [UndefinedError] or
    [AttributeError], the loop goes on to the next child with the script
    accumulated so far unchanged; when it raises anything else, the parent's
    call raises it too, and so does [generate_leaflet_string]. *)
Theorem failing_child_is_skipped_or_fatal
    id name t pre child post base mp s0 pre' M L child' M' e :
  own_script t base = ret s0 ->
  for_children child_call base 0 pre s0 (dict_set mp id base) = (pre', M, ret L) ->
  child_call child (base ++ "_" ++ Text.str_nat (List.length pre)) M
    = (child', M', raise e) ->
  match e with
  | OtherError _ =>
      _generate_leaflet_string (Element id name t (pre ++ child :: post)) true base mp
      = (Element base name t (pre' ++ child' :: post), M', raise e)
      /\ (mp = [] ->
          generate_leaflet_string (Element id name t (pre ++ child :: post)) true base
          = raise e)
  | _ =>
      _generate_leaflet_string (Element id name t (pre ++ child :: post)) true base mp
      = (let '(post', mappings, r) :=
           for_children child_call base (S (List.length pre)) post L M' in
         (Element base name t (pre' ++ child' :: post'), mappings, r))
  end.
Proof.
  intros Hs0 Hpre Hc.
  assert (Hloop :
    for_children child_call base 0 (pre ++ child :: post) s0 (dict_set mp id base)
    = match e with
      | OtherError _ => ((pre' ++ child' :: post)%list, M', raise e)
      | _ =>
          let '(post', mappings, r) :=
            for_children child_call base (S (List.length pre)) post L M' in
          ((pre' ++ child' :: post')%list, mappings, r)
      end).
  { rewrite for_children_app, Hpre. cbn [for_children Nat.add]. rewrite Hc.
    unfold ret, raise. destruct e as [| |n];
      try (destruct (for_children child_call base (S (List.length pre)) post L M')
             as [[post' mp2] r2]); reflexivity. }
  unfold ret, raise in *. destruct e as [| |n].
  - cbn [_generate_leaflet_string]. rewrite Hs0. cbn [negb].
    unfold child_call in Hloop. rewrite Hloop.
    destruct (for_children _ base (S (List.length pre)) post L M')
      as [[post' mp2] r2]. reflexivity.
  - cbn [_generate_leaflet_string]. rewrite Hs0. cbn [negb].
    unfold child_call in Hloop. rewrite Hloop.
    destruct (for_children _ base (S (List.length pre)) post L M')
      as [[post' mp2] r2]. reflexivity.
  - assert (Hg : _generate_leaflet_string
                   (Element id name t (pre ++ child :: post)) true base mp
                 = (Element base name t (pre' ++ child' :: post), M',
                    raise (OtherError n))).
    { cbn [_generate_leaflet_string]. rewrite Hs0. cbn [negb].
      unfold child_call in Hloop. rewrite Hloop. reflexivity. }
    split; [exact Hg|]. intros ->.
    unfold generate_leaflet_string, generate_leaflet_string_full.
    rewrite Hg. reflexivity.
Qed.

Lemma failing_child_is_skipped_or_fatal_witness :
  _generate_leaflet_string (map_with_failing_child AttributeError) true "0" []
  = (Element "0" "Map" (fixed_template "map")
       [Element "0_0" "Layer"
          {| module_script := fun _ => raise AttributeError;
             render := fun _ => raise AttributeError |} [];
        Element "0_1" "Marker" (fixed_template "second") []],
     [("AB", "0"); ("CD", "0_0"); ("GH", "0_1")],
     ret ("map" ++ Text.nl ++ "second"))
  /\ generate_leaflet_string (map_with_failing_child (OtherError "KeyError")) true "0"
     = raise (OtherError "KeyError").
Proof.
  split.
  - exact (failing_child_is_skipped_or_fatal "AB" "Map" (fixed_template "map") []
             (Element "CD" "Layer"
                {| module_script := fun _ => raise AttributeError;
                   render := fun _ => raise AttributeError |} [])
             [Element "GH" "Marker" (fixed_template "second") []]
             "0" [] "map" [] [("AB", "0")] "map"
             (Element "0_0" "Layer"
                {| module_script := fun _ => raise AttributeError;
                   render := fun _ => raise AttributeError |} [])
             [("AB", "0"); ("CD", "0_0")] AttributeError
             eq_refl eq_refl eq_refl).
  - exact (proj2
            (failing_child_is_skipped_or_fatal "AB" "Map" (fixed_template "map") []
               (Element "CD" "Layer"
                  {| module_script := fun _ => raise (OtherError "KeyError");
                     render := fun _ => raise (OtherError "KeyError") |} [])
               [Element "GH" "Marker" (fixed_template "second") []]
               "0" [] "map" [] [("AB", "0")] "map"
               (Element "0_0" "Layer"
                  {| module_script := fun _ => raise (OtherError "KeyError");
                     render := fun _ => raise (OtherError "KeyError") |} [])
               [("AB", "0"); ("CD", "0_0")] (OtherError "KeyError")
               eq_refl eq_refl eq_refl) eq_refl).
Defined.

(** ** Order of the snippets *)

Lemma join_children_app rec base pre post :
  forall idx,
    join_children rec base idx (pre ++ post)
    = match join_children rec base idx pre with
      | inl t1 =>
          match join_children rec base (idx + List.length pre) post with
          | inl t2 => inl (t1 ++ t2)
          | inr e => inr e
          end
      | inr e => inr e
      end.
Proof.
  induction pre as [|c pre IH]; intros idx;
    cbn [join_children List.app List.length ret raise].
  - rewrite Nat.add_0_r. destruct (join_children rec base idx post); reflexivity.
  - replace (idx + S (List.length pre)) with (S idx + List.length pre) by lia.
    destruct (rec c (base ++ "_" ++ Text.str_nat idx)) as [s|[| |n]];
      try rewrite IH; try reflexivity.
    destruct (join_children rec base (S idx) pre) as [t1|e]; [|reflexivity].
    destruct (join_children rec base (S idx + List.length pre) post) as [t2|e];
      [|reflexivity].
    cbn. rewrite app_assoc_s. reflexivity.
Qed.

(** The layout for a dual map: the scripts of [m1] and [m2], a newline
    between them, then the node's own snippet. *)
Lemma dual_map_layout id name t m1 m2 base mp :
  snd (_generate_leaflet_string (DualMap id name t m1 m2) true base mp)
  = (s1 <- assemble m1 true "0" ;;
     s2 <- assemble m2 true "0" ;;
     s <- module_script t base ;;
     ret ((s1 ++ (Text.nl ++ s2)) ++ s)).
Proof.
  rewrite script_is_assemble. cbn [assemble negb]. unfold bind, ret, raise.
  destruct (assemble m1 true "0"); [|reflexivity].
  destruct (assemble m2 true "0"); [|reflexivity].
  destruct (module_script t base); reflexivity.
Qed.

(** ** Identifiers of a dual map *)

(** Both maps of a dual map are stabilised with the default [base_id]:
    whatever [base_id] the caller passes, [m1] and [m2] both end up with
    ["0"]. *)
Lemma dual_submaps_share_an_id id name t m1 m2 base mp :
  match node_of (_generate_leaflet_string (DualMap id name t m1 m2) true base mp) with
  | DualMap i _ _ m1' m2' =>
      i = base /\ node_id m1' = "0"
      /\ (forall s1, assemble m1 true "0" = ret s1 -> node_id m2' = "0")
  | Element _ _ _ _ => False
  end.
Proof.
  unfold node_of. cbn [_generate_leaflet_string negb].
  pose proof (root_gets_base_id m1 true "0" (dict_set mp id base)) as H1.
  pose proof (script_is_assemble m1 true "0" (dict_set mp id base)) as S1.
  destruct (_generate_leaflet_string m1 true "0" (dict_set mp id base))
    as [[m1' mp1] r1]. cbn [fst snd] in H1, S1.
  destruct r1 as [s1|e].
  - pose proof (root_gets_base_id m2 true "0" mp1) as H2.
    destruct (_generate_leaflet_string m2 true "0" mp1) as [[m2' mp2] r2].
    cbn [fst snd] in H2.
    destruct r2 as [s2|e]; [destruct (module_script t base)|]; cbn; auto.
  - cbn. repeat split; trivial. intros s1 E. rewrite E in S1. discriminate.
Qed.

(** Away from dual maps the identifiers follow the position in the tree:
    when the loop over the children of a node given [base_id] comes to its
    end, the child at index [i] carries [base_id_i]. *)
Lemma children_get_indexed_ids base cs :
  forall idx leaflet mp cs' mp' out,
    for_children child_call base idx cs leaflet mp = (cs', mp', ret out) ->
    map node_id cs'
    = map (fun i => base ++ "_" ++ Text.str_nat i) (seq idx (List.length cs)).
Proof.
  unfold ret.
  induction cs as [|c cs IH]; intros idx leaflet mp cs' mp' out H;
    cbn [for_children List.length seq map ret raise] in *.
  - injection H as <- _ _. reflexivity.
  - set (b := base ++ "_" ++ Text.str_nat idx) in *.
    pose proof (root_gets_base_id c true b mp) as Hid.
    change (_generate_leaflet_string c true b mp) with (child_call c b mp) in Hid.
    destruct (child_call c b mp) as [[c' mp1] r]. cbn [fst snd] in Hid.
    destruct r as [s|[| |n]]; [| | |discriminate];
      (destruct (for_children child_call base (S idx) cs _ mp1)
         as [[rest' mp2] r2] eqn:E;
       injection H as <- _ Hr; subst r2;
       cbn [map]; rewrite Hid, (IH _ _ _ _ _ _ E); reflexivity).
Qed.

(** C2: on a dual map stabilised with [base_id = "map_div"] (as [st_folium]
    does), the first map does not keep ["map_div"] and the second does not
    get a distinct identifier: both are given ["0"], so [get_full_id] names
    both ["map_0"]. *)
Theorem dual_map_ids_collide :
  let '(m', mappings, _) := _generate_leaflet_string dual_demo true "map_div" [] in
  m' = DualMap "map_div" "DualMap" (fixed_template "S")
         (Element "0" "Map" (fixed_template "A") [])
         (Element "0" "Map" (fixed_template "B") [])
  /\ mappings = [("d", "map_div"); ("p", "0"); ("q", "0")]
  /\ get_full_id m' = "map_0"
  /\ match m' with
     | DualMap _ _ _ m1' m2' => get_full_id m1' = get_full_id m2'
     | _ => False
     end.
Proof. cbn. repeat split; reflexivity. Qed.

(** ** Determinism *)

Lemma assemble_ignores_ids (m : Node) :
  forall nested b, assemble (erase_ids m) nested b = assemble m nested b.
Proof.
  induction m as [id name t cs IH | id name t m1 m2 IH1 IH2] using Node_nested_ind;
    intros nested b; cbn [erase_ids assemble].
  - destruct (own_script t b) as [s0|e]; [|reflexivity].
    destruct nested; cbn [negb]; [|reflexivity].
    assert (H : forall idx,
      join_children (fun c b => assemble c true b) b idx (map erase_ids cs)
      = join_children (fun c b => assemble c true b) b idx cs).
    { induction IH as [|c cs Hc Hcs IHcs]; intros idx; cbn [map join_children];
        [reflexivity|]. rewrite Hc, IHcs. reflexivity. }
    rewrite H. reflexivity.
  - rewrite !IH1, !IH2. reflexivity.
Qed.

Lemma visited_ignores_ids (m : Node) :
  forall nested b,
    map snd (visited (erase_ids m) nested b) = map snd (visited m nested b).
Proof.
  induction m as [id name t cs IH | id name t m1 m2 IH1 IH2] using Node_nested_ind;
    intros nested b; cbn [erase_ids visited map snd].
  - f_equal. destruct (own_script t b) as [s0|e]; [|reflexivity].
    destruct nested; cbn [negb]; [|reflexivity].
    generalize 0.
    induction IH as [|c cs Hc Hcs IHcs]; intros idx; cbn [map visited_children];
      [reflexivity|].
    rewrite !map_app, Hc, assemble_ignores_ids.
    destruct (goes_on _); [rewrite IHcs|]; reflexivity.
  - f_equal. destruct nested; cbn [negb]; [|apply IH1].
    rewrite !map_app, IH1, assemble_ignores_ids.
    destruct (assemble m1 true "0"); [rewrite IH2|]; reflexivity.
Qed.

Lemma prefix_nil (s : string) : prefix "" s = true.
Proof. destruct s; reflexivity. Qed.

Lemma occurs_cons_false k c t :
  Text.occurs k (String c t) = false ->
  prefix k (String c t) = false /\ Text.occurs k t = false.
Proof. cbn [Text.occurs]. apply orb_false_iff. Qed.

Lemma replace_scan_absent f k v s :
  Text.occurs k s = false -> Text.replace_scan f k v s = s.
Proof.
  revert s. induction f as [|f IH]; intros s H; [reflexivity|].
  destruct s as [|c t]; [reflexivity|]. cbn [Text.replace_scan].
  apply occurs_cons_false in H. destruct H as [Hp Ht].
  rewrite Hp, (IH t Ht). reflexivity.
Qed.

(** Replacing a text that does not occur changes nothing. *)
Lemma replace_absent k v s : Text.occurs k s = false -> Text.replace k v s = s.
Proof.
  intros H. destruct k as [|c k].
  - destruct s; cbn in H; discriminate.
  - unfold Text.replace. apply replace_scan_absent. exact H.
Qed.

Lemma substitute_absent items s :
  (forall k, In k (keys items) -> Text.occurs k s = false) ->
  substitute items s = s.
Proof.
  induction items as [|[k v] items IH]; intros H; cbn [substitute]; [reflexivity|].
  rewrite replace_absent by (apply H; left; reflexivity).
  apply IH. intros k' Hk'. apply H. right. exact Hk'.
Qed.

Lemma generate_leaflet_string_unfold m nested b :
  generate_leaflet_string m nested b
  = match assemble m nested b with
    | inl leaflet =>
        ret (substitute (dict_update [] (visited m nested b)) leaflet)
    | inr e => raise e
    end.
Proof.
  unfold generate_leaflet_string, generate_leaflet_string_full.
  pose proof (script_is_assemble m nested b []) as Hs.
  pose proof (dict_is_visited m nested b []) as Hd.
  destruct (_generate_leaflet_string m nested b []) as [[m' mp] r].
  cbn [fst snd] in Hs, Hd. subst. destruct (assemble m nested b); reflexivity.
Qed.

Lemma full_mapping m nested b :
  snd (fst (generate_leaflet_string_full m nested b))
  = dict_update [] (visited m nested b).
Proof.
  unfold generate_leaflet_string_full.
  pose proof (dict_is_visited m nested b []) as Hd.
  destruct (_generate_leaflet_string m nested b []) as [[m' mp] [s|e]];
    cbn [fst snd] in *; exact Hd.
Qed.


(** ** Prefixes, occurrences and the dict *)

Lemma has_char_head c k : has_char c (String c k) = true.
Proof. cbn. rewrite Ascii.eqb_refl. reflexivity. Qed.

Lemma has_char_tail c d k : has_char c (String d k) = false -> has_char c k = false.
Proof. cbn. intros H. apply orb_false_iff in H. apply H. Qed.


Lemma prefix_cons_same c k t : prefix (String c k) (String c t) = prefix k t.
Proof. cbn. destruct (ascii_dec c c); [reflexivity | contradiction]. Qed.


Lemma occurs_drop k n s : Text.occurs k s = false -> Text.occurs k (Text.drop n s) = false.
Proof.
  revert s. induction n as [|n IH]; intros s H; [exact H|].
  destruct s as [|c t]; [exact H|]. cbn [Text.drop]. apply IH.
  apply occurs_cons_false in H. apply H.
Qed.

Lemma replace_nonempty_key k v s :
  k <> "" -> Text.replace k v s = Text.replace_scan (String.length s) k v s.
Proof. destruct k; [contradiction | reflexivity]. Qed.

Lemma keys_dict_set d k v k' :
  In k' (keys (dict_set d k v)) <-> In k' (keys d) \/ k' = k.
Proof.
  induction d as [|[k1 v1] d IH]; cbn [dict_set keys map fst In].
  - split; [intros [<-|[]]; right; reflexivity | intros [ [] | -> ]; left; reflexivity].
  - destruct (String.eqb_spec k1 k) as [->|Hn]; cbn [keys map fst In].
    + split; [tauto | intros [H | ->]; [exact H | left; reflexivity]].
    + unfold keys in IH. rewrite IH.
      split; [intros [H|[H|H]] | intros [[H|H]|H]]; auto.
Qed.

Lemma keys_dict_update items :
  forall d k, In k (keys d) \/ In k (map fst items) -> In k (keys (dict_update d items)).
Proof.
  induction items as [|[k0 v0] items IH]; intros d k H; cbn [dict_update fold_left].
  - destruct H as [H|[]]. exact H.
  - apply (IH (dict_set d k0 v0)). cbn [map fst In] in H.
    rewrite keys_dict_set. destruct H as [H|[<-|H]]; auto.
Qed.

Lemma dict_set_fresh d k v : ~ In k (keys d) -> dict_set d k v = (d ++ [(k, v)])%list.
Proof.
  induction d as [|[k1 v1] d IH]; intros H; [reflexivity|]. cbn [dict_set].
  cbn [keys map fst In] in H.
  destruct (String.eqb_spec k1 k) as [->|Hn]; [tauto|].
  unfold keys in IH. rewrite IH by tauto. reflexivity.
Qed.

Lemma dict_update_fresh items :
  forall d, NoDup (keys d ++ map fst items) -> dict_update d items = (d ++ items)%list.
Proof.
  induction items as [|[k0 v0] items IH]; intros d H; cbn [dict_update fold_left].
  - rewrite app_nil_r. reflexivity.
  - cbn [map fst] in H. change (dict_update (dict_set d k0 v0) items = (d ++ (k0, v0) :: items)%list).
    pose proof (NoDup_remove_2 _ _ _ H) as Hfresh.
    rewrite dict_set_fresh by (intros Hin; apply Hfresh; apply in_or_app; left; exact Hin).
    rewrite IH.
    + rewrite <- app_assoc. reflexivity.
    + unfold keys. rewrite map_app. cbn [map fst]. rewrite <- app_assoc. exact H.
Qed.

(** ** Scanning with [re.sub] *)

Section Scan.

Variable p : Re.matcher.

Hypothesis p_consumes : consumes p.

Lemma match_shortens s r : p s = Some r -> String.length r < String.length s.
Proof.
  intros H. destruct (p_consumes s r H) as [m [Hm ->]].
  rewrite length_app_s. destruct m; [contradiction | cbn; lia].
Qed.

Lemma sub_scan_fuel f1 :
  forall f2 s, String.length s <= f1 -> String.length s <= f2 ->
    Re.sub_scan p f1 s = Re.sub_scan p f2 s.
Proof.
  induction f1 as [|f1 IH]; intros f2 s H1 H2.
  - destruct s; [|cbn in H1; lia]. destruct f2; reflexivity.
  - destruct s as [|c t]; [destruct f2; reflexivity|].
    destruct f2 as [|f2]; [cbn in H2; lia|]. cbn [Re.sub_scan].
    cbn in H1, H2. destruct (p (String c t)) as [r|] eqn:E.
    + apply match_shortens in E. cbn in E. apply IH; lia.
    + f_equal. apply IH; lia.
Qed.

Lemma sub_enough_fuel f s : String.length s <= f -> Re.sub_scan p f s = Re.sub p s.
Proof. intros H. unfold Re.sub. apply sub_scan_fuel; [exact H | lia]. Qed.

Lemma sub_nil : Re.sub p "" = "".
Proof. reflexivity. Qed.

Lemma sub_match c t r : p (String c t) = Some r -> Re.sub p (String c t) = Re.sub p r.
Proof.
  intros E. unfold Re.sub at 1. cbn [String.length Re.sub_scan]. rewrite E.
  apply sub_enough_fuel. apply match_shortens in E. cbn in E. lia.
Qed.

Lemma sub_no_match c t :
  p (String c t) = None -> Re.sub p (String c t) = String c (Re.sub p t).
Proof.
  intros E. unfold Re.sub at 1. cbn [String.length Re.sub_scan]. rewrite E.
  reflexivity.
Qed.

Lemma cuts_before_suffix m r z : cuts_before p (m ++ r) z -> cuts_before p r z.
Proof.
  intros H u w -> Hw. apply (H (m ++ u) w); [|exact Hw].
  rewrite app_assoc_s. reflexivity.
Qed.

Lemma sub_app_cut n :
  forall x z, String.length x <= n -> cuts_before p x z ->
    Re.sub p (x ++ z) = Re.sub p x ++ Re.sub p z.
Proof.
  induction n as [|n IH]; intros x z Hl Hc.
  - destruct x; [reflexivity | cbn in Hl; lia].
  - destruct x as [|c t]; [reflexivity|].
    pose proof (Hc "" (String c t) eq_refl ltac:(discriminate)) as Hp.
    destruct (p (String c t)) as [r|] eqn:E; cbn [option_map] in Hp.
    + cbn [append] in *. rewrite (sub_match c (t ++ z) (r ++ z) Hp).
      rewrite (sub_match c t r E).
      destruct (p_consumes _ _ E) as [m [Hm Hmr]].
      apply IH.
      * apply match_shortens in E. cbn in E, Hl. lia.
      * apply (cuts_before_suffix m). rewrite <- Hmr. exact Hc.
    + cbn [append] in *. rewrite (sub_no_match c (t ++ z) Hp).
      rewrite (sub_no_match c t E). cbn [append]. f_equal.
      apply IH; [cbn in Hl; lia|].
      apply (cuts_before_suffix (String c "")). exact Hc.
Qed.

Lemma sub_cut x z : cuts_before p x z -> Re.sub p (x ++ z) = Re.sub p x ++ Re.sub p z.
Proof. apply (sub_app_cut (String.length x)). lia. Qed.

(** A text in which the pattern matches nowhere is left as it is. *)
Lemma sub_nowhere s :
  (forall u w, s = u ++ w -> p w = None) -> Re.sub p s = s.
Proof.
  induction s as [|c t IH]; intros H; [reflexivity|].
  rewrite sub_no_match by (apply (H ""); reflexivity).
  f_equal. apply IH. intros u w ->. apply (H (String c u)). reflexivity.
Qed.

End Scan.

(** ** The two patterns *)

Lemma skip_class_suffix cls t : exists m, t = m ++ Re.skip_class cls t.
Proof.
  induction t as [|c t [m IH]]; [exists ""; reflexivity|]. cbn [Re.skip_class].
  destruct (cls c); [|exists ""; reflexivity].
  exists (String c m). cbn. rewrite <- IH. reflexivity.
Qed.

Lemma skip_class_all cls h y :
  all_in cls h = true -> Re.skip_class cls (h ++ y) = Re.skip_class cls y.
Proof.
  induction h as [|c h IH]; intros H; [reflexivity|]. cbn in H.
  apply andb_true_iff in H. destruct H as [Hc Hh].
  cbn [append Re.skip_class]. rewrite Hc. apply IH. exact Hh.
Qed.

Lemma skip_class_outside cls z :
  starts_outside cls z = true -> Re.skip_class cls z = z.
Proof.
  destruct z as [|c z]; [reflexivity|]. cbn. intros H.
  apply negb_true_iff in H. rewrite H. reflexivity.
Qed.

Lemma skip_class_app_outside cls t z :
  starts_outside cls z = true ->
  Re.skip_class cls (t ++ z) = Re.skip_class cls t ++ z.
Proof.
  intros Hz. induction t as [|c t IH]; [apply skip_class_outside; exact Hz|].
  cbn [append Re.skip_class]. destruct (cls c); [exact IH | reflexivity].
Qed.

Lemma skip_class_app_last cls t z c :
  last_char t = Some c -> cls c = false ->
  Re.skip_class cls (t ++ z) = Re.skip_class cls t ++ z
  /\ Re.skip_class cls t <> "".
Proof.
  intros Hl Hc. induction t as [|d t IH]; [discriminate|].
  cbn [append Re.skip_class]. destruct (cls d) eqn:Ed; [|split; [reflexivity|discriminate]].
  destruct t as [|d' t'].
  - cbn in Hl. injection Hl as ->. congruence.
  - apply IH. exact Hl.
Qed.

Lemma prefix_split a s : prefix a s = true -> s = a ++ Text.drop (String.length a) s.
Proof.
  revert s. induction a as [|c a IH]; intros s H; [reflexivity|].
  destruct s as [|d s]; [discriminate|]. cbn in H.
  destruct (ascii_dec c d) as [->|]; [|discriminate].
  cbn [String.length Text.drop append]. f_equal. apply IH. exact H.
Qed.

Lemma pattern_consumes : consumes Re.pattern.
Proof.
  intros s r H. unfold Re.pattern in H.
  destruct s as [|c [|d t]]; try discriminate;
    destruct (ascii_dec c "_") as [->|Hn].
  - discriminate.
  - destruct c as [[] [] [] [] [] [] [] []]; try discriminate; contradiction.
  - destruct (Re.lower_alnum d); [|discriminate]. injection H as <-.
    destruct (skip_class_suffix Re.lower_alnum t) as [m Hm].
    exists (String "_" (String d m)). split; [discriminate|].
    cbn. rewrite <- Hm. reflexivity.
  - destruct c as [[] [] [] [] [] [] [] []]; try discriminate; contradiction.
Qed.

Lemma url_pattern_consumes : consumes Re.url_pattern.
Proof.
  intros s r H. unfold Re.url_pattern in H.
  destruct (prefix "maps/" s) eqn:Ep; [|discriminate].
  apply prefix_split in Ep. cbn [String.length] in Ep.
  destruct (Text.drop 5 s) as [|d t]; [discriminate|].
  destruct (Re.dash_lower_alnum d); [|discriminate].
  destruct (skip_class_suffix Re.dash_lower_alnum t) as [m Hm].
  destruct (Re.skip_class Re.dash_lower_alnum t) as [|e r'] eqn:Es; [discriminate|].
  destruct (ascii_dec e "/") as [->|Hn].
  - injection H as <-. exists ("maps/" ++ String d m ++ "/"). split; [discriminate|].
    rewrite Ep, Hm. cbn. rewrite app_assoc_s. reflexivity.
  - destruct e as [[] [] [] [] [] [] [] []]; try discriminate; contradiction.
Qed.

Lemma pattern_not_underscore c t : c <> "_"%char -> Re.pattern (String c t) = None.
Proof.
  intros Hn. unfold Re.pattern.
  destruct c as [[] [] [] [] [] [] [] []]; try reflexivity;
    destruct t; try reflexivity; contradiction Hn; reflexivity.
Qed.

Lemma last_char_app u w : w <> "" -> last_char (u ++ w) = last_char w.
Proof.
  intros Hw. induction u as [|c u IH]; [reflexivity|]. cbn [append last_char].
  destruct (u ++ w) as [|d r] eqn:E; [|exact IH].
  destruct u; [cbn in E; contradiction | discriminate].
Qed.

Lemma ends_with_app suf u : ends_with suf (u ++ suf) = true.
Proof.
  induction u as [|c u IH].
  - destruct suf; cbn [append ends_with]; rewrite String.eqb_refl; reflexivity.
  - cbn [append ends_with]. rewrite IH. apply orb_true_r.
Qed.

(** A match of the identifier pattern never runs past a text that starts
    outside [[a-z0-9]]. *)
Lemma pattern_cuts_before_outside x z :
  starts_outside Re.lower_alnum z = true -> cuts_before Re.pattern x z.
Proof.
  intros Hz u w _ Hw. destruct w as [|c w]; [contradiction|].
  destruct (ascii_dec c "_") as [->|Hn].
  - destruct w as [|d t]; cbn [append].
    + destruct z as [|d z]; [reflexivity|]. cbn in Hz.
      apply negb_true_iff in Hz. cbn. rewrite Hz. reflexivity.
    + cbn [Re.pattern]. destruct (Re.lower_alnum d); [|reflexivity].
      cbn [option_map]. rewrite skip_class_app_outside by exact Hz. reflexivity.
  - cbn [append]. rewrite !pattern_not_underscore by exact Hn. reflexivity.
Qed.

(** Nor past the end of a text whose last character is outside
    [[a-z0-9_]]. *)
Lemma pattern_cuts_after_outside x z c0 :
  last_char x = Some c0 -> Re.lower_alnum c0 = false -> c0 <> "_"%char ->
  cuts_before Re.pattern x z.
Proof.
  intros Hl Hc0 Hu u w -> Hw. rewrite (last_char_app u w Hw) in Hl.
  destruct w as [|c w]; [contradiction|].
  destruct (ascii_dec c "_") as [->|Hn].
  - destruct w as [|d t]; cbn [append].
    + cbn in Hl. congruence.
    + cbn [Re.pattern]. destruct (Re.lower_alnum d) eqn:Ed; [|reflexivity].
      cbn [option_map]. destruct t as [|d' t'].
      * cbn in Hl. congruence.
      * destruct (skip_class_app_last Re.lower_alnum (String d' t') z c0 Hl Hc0)
          as [-> _]. reflexivity.
  - cbn [append]. rewrite !pattern_not_underscore by exact Hn. reflexivity.
Qed.

Ltac ends_in_class Hl Hc0 :=
  exfalso; cbn in Hl; injection Hl as <-; vm_compute in Hc0; discriminate.

(** A match of the tile pattern never runs past the end of a text whose
    last character is outside [[-a-z0-9]] and which does not end with
    ["maps/"]. *)
Lemma url_pattern_cuts_after_outside x z c0 :
  last_char x = Some c0 -> Re.dash_lower_alnum c0 = false ->
  ends_with "maps/" x = false ->
  cuts_before Re.url_pattern x z.
Proof.
  intros Hl Hc0 He u w -> Hw. rewrite (last_char_app u w Hw) in Hl.
  assert (Hne : w <> "maps/")
    by (intros ->; rewrite ends_with_app in He; discriminate).
  clear He u. unfold Re.url_pattern.
  destruct w as [|c1 w]; [contradiction|]. cbn [append prefix].
  destruct (ascii_dec "m" c1) as [<-|]; [|reflexivity].
  destruct w as [|c2 w]; [ends_in_class Hl Hc0|]. cbn [append prefix].
  destruct (ascii_dec "a" c2) as [<-|]; [|reflexivity].
  destruct w as [|c3 w]; [ends_in_class Hl Hc0|]. cbn [append prefix].
  destruct (ascii_dec "p" c3) as [<-|]; [|reflexivity].
  destruct w as [|c4 w]; [ends_in_class Hl Hc0|]. cbn [append prefix].
  destruct (ascii_dec "s" c4) as [<-|]; [|reflexivity].
  destruct w as [|c5 w]; [ends_in_class Hl Hc0|]. cbn [append prefix].
  destruct (ascii_dec "/" c5) as [<-|]; [|reflexivity].
  cbn [Text.drop]. destruct w as [|d t]; [contradiction|]. cbn [append].
  destruct (Re.dash_lower_alnum d) eqn:Ed; [|reflexivity].
  destruct t as [|d' t'].
  - cbn in Hl. congruence.
  - assert (Hl' : last_char (String d' t') = Some c0).
    { rewrite <- Hl. symmetry.
      exact (last_char_app ("maps/" ++ String d "") (String d' t')
               ltac:(discriminate)). }
    destruct (skip_class_app_last Re.dash_lower_alnum (String d' t') z c0 Hl' Hc0)
      as [E1 E2].
    rewrite E1.
    destruct (Re.skip_class Re.dash_lower_alnum (String d' t')) as [|e r'];
      [contradiction|]. cbn [append].
    destruct (ascii_dec e "/") as [->|Hn]; [reflexivity|].
    destruct e as [[] [] [] [] [] [] [] []]; reflexivity.
Qed.

(** ** Normal forms of scripts that differ in one random part *)

Lemma cuts_before_nil p z : cuts_before p "" z.
Proof.
  intros u w H Hw. destruct u; [|discriminate]. cbn in H. subst. contradiction.
Qed.

Lemma last_char_split x c : last_char x = Some c -> exists x', x = x' ++ String c "".
Proof.
  induction x as [|d x IH]; [discriminate|]. intros H. destruct x as [|d' x'].
  - cbn in H. injection H as ->. exists "". reflexivity.
  - destruct (IH H) as [x0 E]. exists (String d x0). cbn [append]. rewrite <- E.
    reflexivity.
Qed.

Lemma last_char_none x : last_char x = None -> x = "".
Proof.
  destruct x as [|c x]; [reflexivity|]. intros H. exfalso. revert c H.
  induction x as [|d x IH]; intros c H; [discriminate|].
  apply (IH d). exact H.
Qed.

(** The identifier suffix and the run of [[a-z0-9]] after it are deleted
    whatever the suffix is. *)
Lemma sub_pattern_suffix x h y :
  h <> "" -> all_in Re.lower_alnum h = true ->
  Re.sub Re.pattern (x ++ "_" ++ h ++ y)
  = Re.sub Re.pattern x ++ Re.sub Re.pattern (Re.skip_class Re.lower_alnum y).
Proof.
  intros Hh Ha. rewrite (sub_cut _ pattern_consumes)
    by (apply pattern_cuts_before_outside; reflexivity).
  f_equal. destruct h as [|d h]; [contradiction|]. cbn in Ha.
  apply andb_true_iff in Ha. destruct Ha as [Hd Ha].
  cbn [append]. rewrite (sub_match _ pattern_consumes _ _ (Re.skip_class Re.lower_alnum y)).
  - reflexivity.
  - cbn [Re.pattern]. rewrite Hd, (skip_class_all _ h y Ha). reflexivity.
Qed.

Lemma has_char_app c a b : has_char c (a ++ b) = has_char c a || has_char c b.
Proof.
  induction a as [|d a IH]; [reflexivity|]. cbn [append has_char].
  rewrite IH, orb_assoc. reflexivity.
Qed.

Lemma no_underscore_no_match s :
  has_char "_" s = false -> forall u w, s = u ++ w -> Re.pattern w = None.
Proof.
  intros H u w ->. rewrite has_char_app in H. apply orb_false_iff in H.
  destruct H as [_ H]. destruct w as [|c w]; [reflexivity|].
  apply pattern_not_underscore. intros ->. rewrite has_char_head in H.
  discriminate.
Qed.

Lemma run_has_no_underscore r :
  all_in Re.dash_lower_alnum r = true -> has_char "_" r = false.
Proof.
  induction r as [|c r IH]; [reflexivity|]. cbn [all_in has_char].
  intros H. apply andb_true_iff in H. destruct H as [Hc Hr].
  rewrite (IH Hr), orb_false_r. apply Ascii.eqb_neq. intros <-.
  vm_compute in Hc. discriminate.
Qed.

(** The first pass leaves a tile path segment as it is, when the text
    before it is empty or ends outside [[a-z0-9_]]. *)
Lemma sub_pattern_tile x r y :
  all_in Re.dash_lower_alnum r = true ->
  match last_char x with
  | None => true
  | Some c => negb (word_char c)
  end = true ->
  Re.sub Re.pattern (x ++ "maps/" ++ r ++ "/" ++ y)
  = Re.sub Re.pattern x ++ "maps/" ++ r ++ "/" ++ Re.sub Re.pattern y.
Proof.
  intros Hr Hx.
  assert (Hcut : cuts_before Re.pattern x ("maps/" ++ r ++ "/" ++ y)).
  { destruct (last_char x) as [c0|] eqn:El.
    - apply negb_true_iff in Hx. unfold word_char, Re.dash_lower_alnum in Hx.
      apply orb_false_iff in Hx. destruct Hx as [Hx Hu].
      apply orb_false_iff in Hx. destruct Hx as [_ Hx].
      apply (pattern_cuts_after_outside x _ c0 El Hx).
      apply Ascii.eqb_neq. exact Hu.
    - rewrite (last_char_none x El). apply cuts_before_nil. }
  rewrite (sub_cut _ pattern_consumes _ _ Hcut). f_equal.
  replace ("maps/" ++ r ++ "/" ++ y) with (("maps/" ++ r ++ "/") ++ y)
    by (rewrite !app_assoc_s; reflexivity).
  rewrite (sub_cut _ pattern_consumes).
  - rewrite (sub_nowhere Re.pattern ("maps/" ++ r ++ "/")).
    + rewrite !app_assoc_s. reflexivity.
    + apply no_underscore_no_match. rewrite !has_char_app.
      rewrite (run_has_no_underscore r Hr). reflexivity.
  - apply (pattern_cuts_after_outside _ _ "/").
    + replace ("maps/" ++ r ++ "/") with (("maps/" ++ r) ++ "/")
        by (rewrite !app_assoc_s; reflexivity).
      rewrite last_char_app by discriminate. reflexivity.
    + reflexivity.
    + discriminate.
Qed.

Lemma pattern_single c : Re.pattern (String c "") = None.
Proof.
  destruct (ascii_dec c "_") as [->|Hn]; [reflexivity|].
  apply pattern_not_underscore. exact Hn.
Qed.

Lemma sub_pattern_keeps_last x c0 :
  last_char x = Some c0 -> Re.lower_alnum c0 = false ->
  last_char (Re.sub Re.pattern x) = Some c0.
Proof.
  intros Hl Hc. destruct (last_char_split x c0 Hl) as [x' ->].
  rewrite (sub_cut _ pattern_consumes)
    by (apply pattern_cuts_before_outside; cbn; rewrite Hc; reflexivity).
  rewrite (sub_no_match _ c0 "" (pattern_single c0)).
  rewrite last_char_app by discriminate. reflexivity.
Qed.

(** The second pass deletes a tile path segment at the head of a text. *)
Lemma sub_url_pattern_tile r w :
  r <> "" -> all_in Re.dash_lower_alnum r = true ->
  Re.sub Re.url_pattern ("maps/" ++ r ++ "/" ++ w) = Re.sub Re.url_pattern w.
Proof.
  intros Hr Ha. destruct r as [|d r]; [contradiction|]. cbn in Ha.
  apply andb_true_iff in Ha. destruct Ha as [Hd Ha].
  apply (sub_match _ url_pattern_consumes). unfold Re.url_pattern.
  cbn [prefix append Text.drop]. cbn. rewrite Hd.
  rewrite (skip_class_all _ r (String "/" w) Ha). reflexivity.
Qed.

Lemma standardized_js_tile x r y key :
  r <> "" -> all_in Re.dash_lower_alnum r = true -> tile_context x = true ->
  standardized_js (x ++ "maps/" ++ r ++ "/" ++ y) key
  = (Re.sub Re.url_pattern (Re.sub Re.pattern x)
     ++ Re.sub Re.url_pattern (Re.sub Re.pattern y ++ Text.str key))
    ++ Text.str key.
Proof.
  intros Hr Ha Hx. unfold tile_context in Hx. apply andb_true_iff in Hx.
  destruct Hx as [Hlast Hends]. apply negb_true_iff in Hends.
  unfold standardized_js. f_equal.
  rewrite (sub_pattern_tile x r y Ha Hlast).
  replace ((Re.sub Re.pattern x ++ "maps/" ++ r ++ "/" ++ Re.sub Re.pattern y)
           ++ Text.str key)
    with (Re.sub Re.pattern x
          ++ "maps/" ++ r ++ "/" ++ (Re.sub Re.pattern y ++ Text.str key))
    by (rewrite !app_assoc_s; reflexivity).
  rewrite (sub_cut _ url_pattern_consumes).
  - rewrite (sub_url_pattern_tile r _ Hr Ha). reflexivity.
  - destruct (last_char x) as [c0|] eqn:El.
    + apply negb_true_iff in Hlast. unfold word_char in Hlast.
      apply orb_false_iff in Hlast. destruct Hlast as [Hd _].
      pose proof Hd as Hd'. unfold Re.dash_lower_alnum in Hd'.
      apply orb_false_iff in Hd'. destruct Hd' as [_ Hal].
      apply (url_pattern_cuts_after_outside _ _ c0); trivial.
      apply sub_pattern_keeps_last; assumption.
    + rewrite (last_char_none x El). apply cuts_before_nil.
Qed.

Lemma standardized_js_suffix x h y key :
  h <> "" -> all_in Re.lower_alnum h = true ->
  standardized_js (x ++ "_" ++ h ++ y) key
  = Re.sub Re.url_pattern
      ((Re.sub Re.pattern x ++ Re.sub Re.pattern (Re.skip_class Re.lower_alnum y))
       ++ Text.str key)
    ++ Text.str key.
Proof.
  intros Hh Ha. unfold standardized_js.
  rewrite (sub_pattern_suffix x h y Hh Ha). reflexivity.
Qed.

Lemma differ_once_same_text a b key :
  differ_once tile_context a b -> standardized_js a key = standardized_js b key.
Proof.
  intros [x h1 h2 y H1 H2 A1 A2 | x r1 r2 y H1 H2 A1 A2 Hx].
  - rewrite !standardized_js_suffix by assumption. reflexivity.
  - rewrite !standardized_js_tile by assumption. reflexivity.
Qed.

(** ** Stability of the re-mount key *)

(** C4 as stated fails.  A tile path segment that follows an identifier
    suffix, or that follows ["maps/"], is not read as one: the earlier match
    takes its ["maps"], and the digests of two scripts that differ in that
    segment only are different.  And a change of key need not change the
    digest: [None] and ["None"] give the same one, as do [""] and
    ["maps/"] on the script ["maps/a/maps/"]. *)
Lemma hash_moves_and_key_collides :
  differ_only any_context "_maps/abc/" "_maps/xyz/"
  /\ generate_js_hash "_maps/abc/" (Some "k")
     <> generate_js_hash "_maps/xyz/" (Some "k")
  /\ differ_only any_context "maps/maps/abc/" "maps/maps/xyz/"
  /\ generate_js_hash "maps/maps/abc/" (Some "k")
     <> generate_js_hash "maps/maps/xyz/" (Some "k")
  /\ None <> Some "None"
  /\ generate_js_hash "var x;" None = generate_js_hash "var x;" (Some "None")
  /\ Some "" <> Some "maps/"
  /\ generate_js_hash "maps/a/maps/" (Some "")
     = generate_js_hash "maps/a/maps/" (Some "maps/").
Proof.
  split; [|split; [|split; [|split; [|split; [|split; [|split]]]]]].
  - apply rt_step.
    refine (tile_differs any_context "_" "abc" "xyz" "" _ _ _ _ _);
      [discriminate | discriminate | reflexivity ..].
  - vm_compute. discriminate.
  - apply rt_step.
    refine (tile_differs any_context "maps/" "abc" "xyz" "" _ _ _ _ _);
      [discriminate | discriminate | reflexivity ..].
  - vm_compute. discriminate.
  - discriminate.
  - vm_compute. reflexivity.
  - discriminate.
  - vm_compute. reflexivity.
Qed.

(** ** What the traversal leaves alone *)

Lemma for_children_keeps_structure base cs :
  Forall (fun c => forall nested b mp,
            erase_ids (fst (fst (_generate_leaflet_string c nested b mp)))
            = erase_ids c) cs ->
  forall idx leaflet mp,
    map erase_ids (fst (fst (for_children child_call base idx cs leaflet mp)))
    = map erase_ids cs.
Proof.
  induction 1 as [|c cs Hc Hcs IH]; intros idx leaflet mp;
    cbn [for_children map]; [reflexivity|].
  set (b := base ++ "_" ++ Text.str_nat idx).
  specialize (Hc true b mp). unfold child_call at 1.
  destruct (_generate_leaflet_string c true b mp) as [[c' mp1] r].
  cbn [fst snd] in Hc.
  destruct r as [s|[| |n]].
  - specialize (IH (S idx) (leaflet ++ (Text.nl ++ s)) mp1).
    destruct (for_children child_call base (S idx) cs _ mp1) as [[rest' mp2] r2].
    cbn [fst snd map] in *. rewrite Hc, IH. reflexivity.
  - specialize (IH (S idx) leaflet mp1).
    destruct (for_children child_call base (S idx) cs _ mp1) as [[rest' mp2] r2].
    cbn [fst snd map] in *. rewrite Hc, IH. reflexivity.
  - specialize (IH (S idx) leaflet mp1).
    destruct (for_children child_call base (S idx) cs _ mp1) as [[rest' mp2] r2].
    cbn [fst snd map] in *. rewrite Hc, IH. reflexivity.
  - cbn [fst snd map]. rewrite Hc. reflexivity.
Qed.

(** X1: a call of [_generate_leaflet_string] changes identifiers and nothing
    else: whatever it returns or raises, the tree it leaves has the names,
    templates and shape of the tree it was given. *)
Theorem traversal_changes_only_ids m :
  forall nested base mp,
    erase_ids (fst (fst (_generate_leaflet_string m nested base mp)))
    = erase_ids m.
Proof.
  induction m as [id0 name t cs IH | id0 name t m1 m2 IH1 IH2] using Node_nested_ind;
    intros nested b mp; cbn [_generate_leaflet_string].
  - destruct (own_script t b) as [s0|e]; [|reflexivity].
    destruct nested; cbn [negb]; [|reflexivity].
    pose proof (for_children_keeps_structure b cs IH 0 s0 (dict_set mp id0 b)) as H.
    unfold child_call in H.
    destruct (for_children _ b 0 cs s0 (dict_set mp id0 b)) as [[cs' mp'] r].
    cbn [fst snd erase_ids] in *. rewrite H. reflexivity.
  - destruct nested; cbn [negb].
    + specialize (IH1 true "0" (dict_set mp id0 b)).
      destruct (_generate_leaflet_string m1 true "0" (dict_set mp id0 b))
        as [[m1' mp1] r1]. cbn [fst snd] in IH1.
      destruct r1 as [s1|e]; [|cbn [fst snd erase_ids]; rewrite IH1; reflexivity].
      specialize (IH2 true "0" mp1).
      destruct (_generate_leaflet_string m2 true "0" mp1) as [[m2' mp2] r2].
      cbn [fst snd] in IH2.
      destruct r2 as [s2|e]; [destruct (module_script t b)|];
        cbn [fst snd erase_ids]; rewrite IH1, IH2; reflexivity.
    + specialize (IH1 false "0" (dict_set mp id0 b)).
      destruct (_generate_leaflet_string m1 false "0" (dict_set mp id0 b))
        as [[m1' mp1] r1]. cbn [fst snd erase_ids] in *. rewrite IH1. reflexivity.
Qed.

(** ** The mapping as a dict *)

Lemma dict_set_NoDup d k v : NoDup (keys d) -> NoDup (keys (dict_set d k v)).
Proof.
  induction d as [|[k1 v1] d IH]; intros H; cbn [dict_set].
  - cbn. constructor; [intros [] | constructor].
  - cbn [keys map fst] in H. inversion H as [|? ? Hnot Hd]; subst.
    destruct (String.eqb_spec k1 k) as [->|Hn]; cbn [keys map fst].
    + constructor; assumption.
    + constructor; [|apply IH; exact Hd].
      intros Hin. apply keys_dict_set in Hin. destruct Hin as [Hin| ->]; auto.
Qed.

Lemma dict_set_length d k v : List.length (dict_set d k v) <= S (List.length d).
Proof.
  induction d as [|[k1 v1] d IH]; cbn [dict_set List.length]; [lia|].
  destruct (String.eqb k1 k); cbn [List.length]; lia.
Qed.

Lemma dict_update_NoDup items : forall d, NoDup (keys d) -> NoDup (keys (dict_update d items)).
Proof.
  induction items as [|[k v] items IH]; intros d H; cbn [dict_update fold_left];
    [exact H|]. apply (IH (dict_set d k v)). apply dict_set_NoDup. exact H.
Qed.

Lemma dict_update_length items :
  forall d, List.length (dict_update d items) <= List.length d + List.length items.
Proof.
  induction items as [|[k v] items IH]; intros d; cbn [dict_update fold_left List.length];
    [lia|]. specialize (IH (dict_set d k v)). unfold dict_update in IH.
  pose proof (dict_set_length d k v). cbn [fst snd]. lia.
Qed.

Lemma visited_at_most_nodes m :
  forall nested b, List.length (visited m nested b) <= count_nodes m.
Proof.
  induction m as [id0 name t cs IH | id0 name t m1 m2 IH1 IH2] using Node_nested_ind;
    intros nested b; cbn [visited count_nodes List.length].
  - apply le_n_S. destruct (own_script t b); [|cbn; lia].
    destruct nested; cbn [negb]; [|cbn; lia].
    generalize 0.
    induction IH as [|c cs Hc Hcs IHcs]; intros idx;
      cbn [visited_children map list_sum]; [cbn; lia|].
    rewrite length_app. specialize (Hc true (b ++ "_" ++ Text.str_nat idx)).
    destruct (goes_on _); [specialize (IHcs (S idx))|cbn [List.length]];
      unfold list_sum in *; cbn [fold_right]; lia.
  - apply le_n_S. destruct nested; cbn [negb].
    + rewrite length_app. specialize (IH1 true "0"). specialize (IH2 true "0").
      destruct (assemble m1 true "0"); cbn [List.length]; lia.
    + specialize (IH1 false "0"). lia.
Qed.

(** X2: the dict that a call leaves is a dict again and only grows: given a
    dict with no key twice, it has no key twice, it keeps every key it was
    given, and it has at most one more entry per node of the tree. *)
Theorem mapping_stays_a_dict m nested base mp :
  NoDup (keys mp) ->
  let mappings := snd (fst (_generate_leaflet_string m nested base mp)) in
  NoDup (keys mappings)
  /\ (forall k, In k (keys mp) -> In k (keys mappings))
  /\ In (node_id m) (keys mappings)
  /\ List.length mappings <= List.length mp + count_nodes m.
Proof.
  intros Hnd. cbn zeta. rewrite dict_is_visited. repeat split.
  - apply dict_update_NoDup. exact Hnd.
  - intros k Hk. apply keys_dict_update. left. exact Hk.
  - apply keys_dict_update. right. destruct m; cbn; left; reflexivity.
  - pose proof (dict_update_length (visited m nested base) mp).
    pose proof (visited_at_most_nodes m nested base). lia.
Qed.

Lemma mapping_stays_a_dict_witness :
  NoDup (keys (snd (fst (_generate_leaflet_string map_demo true "m" [("zz", "old")]))))
  /\ In "zz" (keys (snd (fst (_generate_leaflet_string map_demo true "m" [("zz", "old")])))).
Proof.
  assert (H : NoDup (keys [("zz", "old")]))
    by (constructor; [intros [] | constructor]).
  destruct (mapping_stays_a_dict map_demo true "m" [("zz", "old")] H)
    as (H1 & H2 & _).
  split; [exact H1 | apply H2; left; reflexivity].
Defined.

(** ** Stable identifiers are distinct *)

Lemma app_inv_head_s a x y : a ++ x = a ++ y -> x = y.
Proof.
  induction a as [|c a IH]; cbn; [trivial|]. intros H. injection H as H.
  apply IH. exact H.
Qed.

Lemma to_uint_not_Nil n : Nat.to_uint n <> Nil.
Proof.
  intros H. pose proof (Unsigned.to_of (Nat.to_uint n)) as E.
  rewrite Unsigned.of_to, H in E. cbn in E. discriminate.
Qed.

Lemma str_nat_inj i j : Text.str_nat i = Text.str_nat j -> i = j.
Proof.
  unfold Text.str_nat. intros H. apply Unsigned.to_uint_inj.
  pose proof (NilZero.usu _ (to_uint_not_Nil i)) as Hi.
  pose proof (NilZero.usu _ (to_uint_not_Nil j)) as Hj.
  rewrite H in Hi. rewrite Hi in Hj. injection Hj as Hj. exact Hj.
Qed.

Lemma string_of_uint_digits d : all_in is_digit (NilEmpty.string_of_uint d) = true.
Proof. induction d; cbn [NilEmpty.string_of_uint all_in]; try rewrite IHd; reflexivity. Qed.

Lemma str_nat_digits n : all_in is_digit (Text.str_nat n) = true.
Proof.
  unfold Text.str_nat, NilZero.string_of_uint.
  destruct (Nat.to_uint n) eqn:E; try (rewrite <- E; apply string_of_uint_digits);
    try reflexivity; apply string_of_uint_digits.
Qed.

(** Two runs of digits, each followed by a text that does not start with a
    digit, are equal when the whole texts are. *)
Lemma digits_then_other p q x y :
  all_in is_digit p = true -> all_in is_digit q = true ->
  starts_outside is_digit x = true -> starts_outside is_digit y = true ->
  p ++ x = q ++ y -> p = q.
Proof.
  revert q. induction p as [|c p IH]; intros q Hp Hq Hx Hy H.
  - destruct q as [|d q]; [reflexivity|]. cbn in H, Hq. subst x. cbn in Hx.
    apply andb_true_iff in Hq. destruct Hq as [Hd _]. rewrite Hd in Hx. discriminate.
  - destruct q as [|d q].
    + cbn in H, Hp. subst y. cbn in Hy.
      apply andb_true_iff in Hp. destruct Hp as [Hc _]. rewrite Hc in Hy. discriminate.
    + cbn in H, Hp, Hq. injection H as -> H.
      apply andb_true_iff in Hp. apply andb_true_iff in Hq.
      f_equal. apply (IH q); tauto.
Qed.

Lemma length_app_neq b x : x <> "" -> b <> b ++ x.
Proof.
  intros Hx H. apply (f_equal String.length) in H. rewrite length_app_s in H.
  destruct x; [contradiction | cbn in H; lia].
Qed.

Lemma under_child_shape b j v :
  under (b ++ "_" ++ Text.str_nat j) v ->
  exists x, v = b ++ "_" ++ Text.str_nat j ++ x
            /\ starts_outside is_digit x = true.
Proof.
  intros [->|[y ->]].
  - exists "". rewrite ?app_nil_r_s. split; reflexivity.
  - exists ("_" ++ y). rewrite ?app_assoc_s. split; reflexivity.
Qed.

Lemma under_child_id b j v : under (b ++ "_" ++ Text.str_nat j) v -> child_id b j v.
Proof.
  intros H. destruct (under_child_shape b j v H) as (x & E & Hx).
  exists j, x. repeat split; trivial.
Qed.

Lemma child_id_under b lo v : child_id b lo v -> under b v.
Proof. intros (j & x & _ & -> & _). right. exists (Text.str_nat j ++ x). reflexivity. Qed.

Lemma child_id_weaken b lo lo' v : lo' <= lo -> child_id b lo v -> child_id b lo' v.
Proof. intros Hl (j & x & Hj & E & Hx). exists j, x. repeat split; trivial. lia. Qed.

Lemma visited_children_ids b cs :
  Forall (fun c => dual_free c = true ->
            forall nested b v, In v (map snd (visited c nested b)) -> under b v) cs ->
  forallb dual_free cs = true ->
  forall idx v,
    In v (map snd (visited_children (fun c b => visited c true b) b idx cs)) ->
    child_id b idx v.
Proof.
  induction 1 as [|c cs Hc Hcs IH]; intros Hdf idx v Hin;
    cbn [visited_children map] in Hin; [contradiction|].
  cbn [forallb] in Hdf. apply andb_true_iff in Hdf. destruct Hdf as [Hdc Hdcs].
  rewrite map_app in Hin. apply in_app_or in Hin. destruct Hin as [Hin|Hin].
  - apply under_child_id. apply (Hc Hdc true). exact Hin.
  - destruct (goes_on _); [|contradiction].
    apply (child_id_weaken b (S idx)); [lia|]. apply IH; assumption.
Qed.

Lemma visited_ids_under m :
  dual_free m = true ->
  forall nested b v, In v (map snd (visited m nested b)) -> under b v.
Proof.
  induction m as [id0 name t cs IH | id0 name t m1 m2 IH1 IH2] using Node_nested_ind;
    intros Hdf nested b v Hin; [|discriminate].
  cbn [visited map snd] in Hin. destruct Hin as [<-|Hin]; [left; reflexivity|].
  destruct (own_script t b); [|contradiction].
  destruct nested; cbn [negb] in Hin; [|contradiction].
  apply (child_id_under b 0). apply (visited_children_ids b cs IH Hdf). exact Hin.
Qed.

Lemma child_ids_apart b i j v :
  i < j -> under (b ++ "_" ++ Text.str_nat i) v -> ~ child_id b j v.
Proof.
  intros Hij Hu (j' & x' & Hj' & E' & Hx').
  destruct (under_child_shape b i v Hu) as (x & E & Hx).
  rewrite E in E'. apply app_inv_head_s in E'. cbn [append] in E'.
  injection E' as E'.
  apply digits_then_other in E'; try apply str_nat_digits; trivial.
  apply str_nat_inj in E'. lia.
Qed.

Lemma visited_children_NoDup b cs :
  Forall (fun c => dual_free c = true ->
            forall nested b, NoDup (map snd (visited c nested b))) cs ->
  forallb dual_free cs = true ->
  forall idx,
    NoDup (map snd (visited_children (fun c b => visited c true b) b idx cs)).
Proof.
  induction 1 as [|c cs Hc Hcs IH]; intros Hdf idx; cbn [visited_children map];
    [constructor|].
  cbn [forallb] in Hdf. apply andb_true_iff in Hdf. destruct Hdf as [Hdc Hdcs].
  rewrite map_app. apply NoDup_app.
  - apply Hc. exact Hdc.
  - destruct (goes_on _); [apply IH; exact Hdcs | constructor].
  - intros a Ha Hb. destruct (goes_on _); [|contradiction].
    apply (child_ids_apart b idx (S idx) a); [lia | |].
    + apply (visited_ids_under c Hdc true). exact Ha.
    + apply (visited_children_ids b cs); trivial.
      apply Forall_forall. intros c' _. apply visited_ids_under.
Qed.

(** X4: in a tree without a dual map the stable identifiers given in one
    call are pairwise distinct, each being [base_id] or [base_id] followed
    by an underscore and more; so when the original identifiers are distinct
    as well, no two entries of the mapping have the same value. *)
Theorem stable_ids_are_distinct m :
  dual_free m = true ->
  forall nested base,
    NoDup (map snd (visited m nested base))
    /\ (forall v, In v (map snd (visited m nested base)) -> under base v)
    /\ (NoDup (map fst (visited m nested base)) ->
        NoDup (map snd (snd (fst (generate_leaflet_string_full m nested base))))).
Proof.
  intros Hdf nested base.
  assert (Hnd : NoDup (map snd (visited m nested base))).
  { revert Hdf nested base.
    induction m as [id0 name t cs IH | id0 name t m1 m2 IH1 IH2] using Node_nested_ind;
      intros Hdf nested b; [|discriminate].
    cbn [visited map snd]. cbn [dual_free] in Hdf. constructor.
    - destruct (own_script t b); [|intros []].
      destruct nested; cbn [negb]; [|intros []].
      intros Hin. apply (visited_children_ids b cs) in Hin; trivial.
      + destruct Hin as (j & x & _ & E & _). apply (length_app_neq b _) in E; [exact E|].
        discriminate.
      + apply Forall_forall. intros c' _. apply visited_ids_under.
    - destruct (own_script t b); [|constructor].
      destruct nested; cbn [negb]; [|constructor].
      apply visited_children_NoDup; assumption. }
  split; [exact Hnd|]. split.
  - apply visited_ids_under. exact Hdf.
  - intros Hk. rewrite full_mapping, dict_update_fresh by exact Hk. exact Hnd.
Qed.

Lemma stable_ids_are_distinct_witness :
  NoDup (map snd (snd (fst (generate_leaflet_string_full map_demo true "map_div")))).
Proof.
  destruct (stable_ids_are_distinct map_demo eq_refl true "map_div") as (_ & _ & H).
  apply H. vm_compute.
  repeat (constructor; [cbn; intuition discriminate|]). constructor.
Defined.

(** ** The payload of [st_folium] *)

Lemma occurs_app_r k a b : Text.occurs k b = true -> Text.occurs k (a ++ b) = true.
Proof.
  intros H. induction a as [|c a IH]; [exact H|].
  cbn [append Text.occurs]. rewrite IH. apply orb_true_r.
Qed.

Lemma with_drawn_items_declares leaflet :
  Text.occurs "drawnItems" (with_drawn_items leaflet) = true.
Proof.
  unfold with_drawn_items.
  destruct (Text.occurs "drawnItems" leaflet) eqn:E; cbn [negb]; [exact E|].
  apply occurs_app_r. reflexivity.
Qed.

Lemma element_keeps_name i n t cs nested b mp :
  exists cs', fst (fst (_generate_leaflet_string (Element i n t cs) nested b mp))
              = Element b n t cs'.
Proof.
  cbn [_generate_leaflet_string].
  destruct (own_script t b); [|exists cs; reflexivity].
  destruct nested; cbn [negb]; [|exists cs; reflexivity].
  destruct (for_children _ b 0 cs _ _) as [[cs' mp'] r]. exists cs'. reflexivity.
Qed.

Lemma full_node m nested b :
  fst (fst (generate_leaflet_string_full m nested b))
  = fst (fst (_generate_leaflet_string m nested b [])).
Proof.
  unfold generate_leaflet_string_full.
  destruct (_generate_leaflet_string m nested b []) as [[m' mp] [s|e]]; reflexivity.
Qed.

Section Payloads.

Context {F : Type}.
Variable is_map : Node -> bool.
Variable root_children : list (Res string).
Variable view : Fig F.

(** X5: whenever [st_folium] returns, the script it hands to the component
    mentions [drawnItems]: the declaration is appended when the generated
    script lacks it. *)
Theorem st_folium_declares_drawn_items fig k returned_objects fg p :
  st_folium is_map root_children view fig k returned_objects fg = ret p ->
  Text.occurs "drawnItems" (script p) = true
  /\ key p = generate_js_hash (script p) k.
Proof.
  unfold st_folium, bind, ret, raise.
  destruct (displayed_map is_map fig) as [m|e]; [|discriminate].
  destruct (generate_leaflet_string_full m true "map_div") as [[m' mp] [leaflet|e]];
    [|discriminate].
  destruct (match m' with
            | Element _ _ _ _ => (get_full_id m', leaflet)
            | DualMap _ _ _ m1 m2 =>
                (get_full_id m1, Text.replace (get_full_id m2) "map_div2" leaflet)
            end) as [m_id leaflet'].
  destruct (defaults view returned_objects) as [d|e]; [|discriminate].
  destruct fg as [g|].
  - destruct (generate_leaflet_string (set_id g "feature_group") true "feature_group")
      as [s|e]; [|discriminate].
    intros H. injection H as <-. cbn [script key].
    split; [apply with_drawn_items_declares | reflexivity].
  - intros H. injection H as <-. cbn [script key].
    split; [apply with_drawn_items_declares | reflexivity].
Qed.

(** X6: for a map that is not a dual map, the [id] handed to the component
    is the lowercased name of the displayed node followed by ["_map_div"]:
    the identifier the node came with never reaches it. *)
Theorem st_folium_id_is_stable fig k returned_objects fg p i n t cs :
  displayed_map is_map fig = ret (Element i n t cs) ->
  st_folium is_map root_children view fig k returned_objects fg = ret p ->
  id p = lower n ++ "_map_div".
Proof.
  intros Hd. unfold st_folium, bind, ret, raise in *. rewrite Hd.
  pose proof (full_node (Element i n t cs) true "map_div") as Hn.
  destruct (element_keeps_name i n t cs true "map_div" []) as [cs' Hc].
  rewrite Hc in Hn.
  destruct (generate_leaflet_string_full (Element i n t cs) true "map_div")
    as [[m' mp] [leaflet|e]]; [|discriminate].
  cbn [fst] in Hn. subst m'.
  destruct (defaults view returned_objects) as [d|e]; [|discriminate].
  destruct fg as [g|].
  - destruct (generate_leaflet_string (set_id g "feature_group") true "feature_group")
      as [s|e]; [|discriminate].
    intros H. injection H as <-. reflexivity.
  - intros H. injection H as <-. reflexivity.
Qed.


End Payloads.

Lemma st_folium_declares_drawn_items_witness :
  exists p,
    st_folium by_name_is_map [] fig_bounded map_fig None None None = ret p
    /\ Text.occurs "drawnItems" (script p) = true.
Proof.
  destruct (st_folium by_name_is_map [] fig_bounded map_fig None None None)
    as [p|e] eqn:E.
  - exists p. split; [reflexivity|].
    apply (st_folium_declares_drawn_items by_name_is_map [] fig_bounded
             map_fig None None None p E).
  - vm_compute in E. discriminate.
Defined.

Lemma st_folium_id_is_stable_witness :
  exists p,
    st_folium by_name_is_map [] fig_bounded map_fig None None None = ret p
    /\ id p = "map_map_div".
Proof.
  destruct (st_folium by_name_is_map [] fig_bounded map_fig None None None)
    as [p|e] eqn:E.
  - exists p. split; [reflexivity|].
    apply (st_folium_id_is_stable by_name_is_map [] fig_bounded map_fig None None
             None p "5f9d" "Map" (var_template "map")
             [Element "77aa" "Marker" (var_template "marker") []]);
      [reflexivity | exact E].
  - vm_compute in E. discriminate.
Defined.


(** ** Defaults: what is not recovered *)

Section DefaultsErrors.

Context {F : Type}.

(** X8: with [returned_objects=[]], as [folium_static] calls [st_folium],
    the defaults handed to the component are empty whenever the call
    returns. *)
Theorem no_returned_objects_no_defaults is_map root_children (view : Fig F)
    fig k fg p :
  st_folium is_map root_children view fig k (Some []) fg = ret p ->
  default p = [].
Proof.
  unfold st_folium, bind, ret, raise.
  destruct (displayed_map is_map fig) as [m|e]; [|discriminate].
  destruct (generate_leaflet_string_full m true "map_div") as [[m' mp] [leaflet|e]];
    [|discriminate].
  destruct (match m' with
            | Element _ _ _ _ => (get_full_id m', leaflet)
            | DualMap _ _ _ m1 m2 =>
                (get_full_id m1, Text.replace (get_full_id m2) "map_div2" leaflet)
            end) as [m_id leaflet'].
  assert (Hd : forall d, defaults view (Some []) = inl d -> d = []).
  { unfold defaults, bind, ret. destruct (_defaults view) as [d0|e]; [|discriminate].
    intros d H. injection H as <-. induction d0 as [|kv d0 IH]; [reflexivity|exact IH]. }
  destruct (defaults view (Some [])) as [d|e] eqn:Ed; [|discriminate].
  pose proof (Hd d eq_refl) as ->.
  destruct fg as [g|].
  - destruct (generate_leaflet_string (set_id g "feature_group") true "feature_group")
      as [s|e]; [|discriminate].
    intros H. injection H as <-. reflexivity.
  - intros H. injection H as <-. reflexivity.
Qed.

(** X9: of the failures of the bounds only [AttributeError] from
    [get_bounds] is recovered: any other exception it raises is raised by
    the defaults resolution, and bounds that are not a list of two items
    make [bounds_to_dict] raise [ValueError]. *)
Theorem bounds_failures_are_raised (view : Fig F) returned_objects :
  (forall e, get_bounds view = raise e -> e <> AttributeError ->
             defaults view returned_objects = raise e)
  /\ (forall items, get_bounds view = ret (VList items) ->
                    List.length items <> 2 ->
                    defaults view returned_objects = raise (OtherError "ValueError")).
Proof.
  split.
  - intros e He Hn. unfold defaults, _defaults, bounds_of. rewrite He.
    destruct e; [reflexivity | contradiction | reflexivity].
  - intros items Hi Hl. unfold defaults, _defaults, bounds_of. rewrite Hi.
    destruct items as [|a [|b [|c r]]]; try reflexivity.
    cbn in Hl. contradiction.
Qed.

End DefaultsErrors.

Lemma no_returned_objects_no_defaults_witness :
  exists p,
    st_folium by_name_is_map [] fig_bounded map_fig None (Some []) None = ret p
    /\ default p = [].
Proof.
  destruct (st_folium by_name_is_map [] fig_bounded map_fig None (Some []) None)
    as [p|e] eqn:E.
  - exists p. split; [reflexivity|].
    apply (no_returned_objects_no_defaults by_name_is_map [] fig_bounded
             map_fig None None p E).
  - vm_compute in E. discriminate.
Defined.

Lemma bounds_failures_are_raised_witness :
  defaults fig_broken None = raise (OtherError "KeyError").
Proof.
  apply (proj1 (bounds_failures_are_raised fig_broken None) (OtherError "KeyError"));
    [reflexivity | discriminate].
Defined.

(** ** The first pass leaves nothing to strip *)

Lemma skip_class_starts_outside cls s :
  starts_outside cls (Re.skip_class cls s) = true.
Proof.
  induction s as [|c s IH]; [reflexivity|]. cbn [Re.skip_class].
  destruct (cls c) eqn:E; [exact IH|]. cbn. rewrite E. reflexivity.
Qed.

Lemma pattern_result_starts_outside s r :
  Re.pattern s = Some r -> starts_outside Re.lower_alnum r = true.
Proof.
  unfold Re.pattern. destruct s as [|c [|d t]]; try discriminate;
    destruct (ascii_dec c "_") as [->|Hn].
  - discriminate.
  - destruct c as [[] [] [] [] [] [] [] []]; discriminate.
  - destruct (Re.lower_alnum d); [|discriminate]. intros H. injection H as <-.
    apply skip_class_starts_outside.
  - destruct c as [[] [] [] [] [] [] [] []]; try discriminate. contradiction.
Qed.

Lemma pattern_underscore_outside x :
  starts_outside Re.lower_alnum x = true -> Re.pattern (String "_" x) = None.
Proof.
  destruct x as [|d x]; [reflexivity|]. cbn. intros H.
  apply negb_true_iff in H. rewrite H. reflexivity.
Qed.

Lemma pattern_none_underscore x :
  Re.pattern (String "_" x) = None -> starts_outside Re.lower_alnum x = true.
Proof.
  destruct x as [|d x]; [reflexivity|]. cbn.
  destruct (Re.lower_alnum d); [discriminate | reflexivity].
Qed.

Lemma sub_pattern_starts_outside n :
  forall x, String.length x <= n ->
    starts_outside Re.lower_alnum x = true ->
    starts_outside Re.lower_alnum (Re.sub Re.pattern x) = true.
Proof.
  induction n as [|n IH]; intros x Hl Hx.
  - destruct x; [reflexivity | cbn in Hl; lia].
  - destruct x as [|d t]; [reflexivity|].
    destruct (Re.pattern (String d t)) as [r|] eqn:E.
    + rewrite (sub_match _ pattern_consumes _ _ _ E). apply IH.
      * apply (match_shortens _ pattern_consumes) in E. cbn in E, Hl. lia.
      * apply (pattern_result_starts_outside _ _ E).
    + rewrite (sub_no_match _ _ _ E). exact Hx.
Qed.

Lemma sub_pattern_leaves_no_match n :
  forall s, String.length s <= n ->
    forall u w, Re.sub Re.pattern s = u ++ w -> Re.pattern w = None.
Proof.
  induction n as [|n IH]; intros s Hl u w H.
  - destruct s; [|cbn in Hl; lia]. cbn in H.
    destruct u; [cbn in H; subst; reflexivity | discriminate].
  - destruct s as [|c t].
    + cbn in H. destruct u; [cbn in H; subst; reflexivity | discriminate].
    + destruct (Re.pattern (String c t)) as [r|] eqn:E.
      * rewrite (sub_match _ pattern_consumes _ _ _ E) in H. eapply (IH r); [|exact H].
        apply (match_shortens _ pattern_consumes) in E. cbn in E, Hl. lia.
      * rewrite (sub_no_match _ _ _ E) in H. destruct u as [|c' u].
        -- cbn in H. subst w. destruct (ascii_dec c "_") as [->|Hn].
           ++ apply pattern_underscore_outside.
              apply (sub_pattern_starts_outside (String.length t)); [lia|].
              apply pattern_none_underscore. exact E.
           ++ apply pattern_not_underscore. exact Hn.
        -- cbn in H. injection H as _ H. eapply (IH t); [cbn in Hl; lia | exact H].
Qed.

(** X10: the first pass of [generate_js_hash] leaves nothing for itself to
    strip, so the digest of a script is the digest of the script with its
    identifier suffixes already removed. *)
Theorem hash_of_stripped_script s k :
  Re.sub Re.pattern (Re.sub Re.pattern s) = Re.sub Re.pattern s
  /\ generate_js_hash (Re.sub Re.pattern s) k = generate_js_hash s k.
Proof.
  assert (H : Re.sub Re.pattern (Re.sub Re.pattern s) = Re.sub Re.pattern s).
  { apply sub_nowhere. intros u w E.
    apply (sub_pattern_leaves_no_match (String.length s) s (le_n _) u w E). }
  split; [exact H|]. unfold generate_js_hash. rewrite H. reflexivity.
Qed.

(** ** Identifiers of the children and errors that stay inside *)

(** X12: when the call for a node that is not a dual map returns with
    [nested=True], the node carries [base_id] and its children, all of them
    and in their order, carry [base_id_0], [base_id_1], and so on. *)
Theorem children_are_numbered i n t cs base mp m' mp' out :
  _generate_leaflet_string (Element i n t cs) true base mp = (m', mp', ret out) ->
  exists cs',
    m' = Element base n t cs'
    /\ map node_id cs'
       = map (fun j => base ++ "_" ++ Text.str_nat j) (seq 0 (List.length cs)).
Proof.
  cbn [_generate_leaflet_string]. unfold ret, raise.
  destruct (own_script t base) as [s0|e]; [|discriminate]. cbn [negb].
  change (fun child b mp0 => _generate_leaflet_string child true b mp0) with child_call.
  destruct (for_children child_call base 0 cs s0 (dict_set mp i base))
    as [[cs' mp1] r] eqn:E.
  intros H. injection H as <- <- ->. exists cs'. split; [reflexivity|].
  apply (children_get_indexed_ids base cs 0 s0 (dict_set mp i base) cs' mp1 out E).
Qed.

Lemma children_are_numbered_witness :
  exists cs',
    fst (fst (_generate_leaflet_string map_demo true "map_div" []))
    = Element "map_div" "Map" (fixed_template "map") cs'
    /\ map node_id cs' = ["map_div_0"; "map_div_1"].
Proof.
  destruct (_generate_leaflet_string map_demo true "map_div" [])
    as [[m' mp'] r] eqn:E.
  destruct r as [out|e]; [|vm_compute in E; discriminate].
  destruct (children_are_numbered "AB" "Map" (fixed_template "map") _ "map_div" []
              m' mp' out E) as [cs' [H1 H2]].
  exists cs'. split; [exact H1 | exact H2].
Defined.

Lemma join_children_raises_only_other rec base cs :
  forall idx e, join_children rec base idx cs = raise e ->
    exists name, e = OtherError name.
Proof.
  induction cs as [|c cs IH]; intros idx e; cbn [join_children]; unfold ret, raise.
  - discriminate.
  - destruct (rec c (base ++ "_" ++ Text.str_nat idx)) as [s|[| |n]].
    + destruct (join_children rec base (S idx) cs) as [tail|e'] eqn:E; [discriminate|].
      intros H. injection H as <-. apply (IH (S idx)). exact E.
    + apply IH.
    + apply IH.
    + intros H. injection H as <-. exists n. reflexivity.
Qed.

(** X13: once a node that is not a dual map has rendered its own snippet,
    its call never raises [UndefinedError] or [AttributeError]: those are
    absorbed at the child that raised them, and only other exceptions come
    out. *)
Theorem child_errors_stay_inside i n t cs nested base mp s0 e :
  own_script t base = ret s0 ->
  snd (_generate_leaflet_string (Element i n t cs) nested base mp) = raise e ->
  exists name, e = OtherError name.
Proof.
  intros Hs. rewrite script_is_assemble. cbn [assemble]. rewrite Hs.
  unfold ret, raise. destruct nested; cbn [negb]; [|discriminate].
  destruct (join_children _ base 0 cs) as [tail|e'] eqn:E; [discriminate|].
  intros H. injection H as <-.
  apply (join_children_raises_only_other _ base cs 0 e' E).
Qed.

Lemma child_errors_stay_inside_witness :
  exists name,
    OtherError "KeyError" = OtherError name.
Proof.
  apply (child_errors_stay_inside "AB" "Map" (fixed_template "map")
           [Element "CD" "Layer"
              {| module_script := fun _ => raise (OtherError "KeyError");
                 render := fun _ => raise (OtherError "KeyError") |} [];
            Element "GH" "Marker" (fixed_template "second") []]
           true "0" [] "map" (OtherError "KeyError")); reflexivity.
Defined.

(** ** Adding a feature group *)

(** X14: passing [feature_group_to_add] changes neither the script nor the
    html nor the re-mount key nor the defaults that [st_folium] hands to the
    component: a call that returns with a feature group returns without it
    too, with these four the same, and without it [feature_group] is
    [None]. *)
Theorem feature_group_does_not_remount {F : Type} is_map root_children
    (view : Fig F) fig k returned_objects g p :
  st_folium is_map root_children view fig k returned_objects (Some g) = ret p ->
  exists p0 s,
    st_folium is_map root_children view fig k returned_objects None = ret p0
    /\ script p = script p0 /\ html p = html p0 /\ key p = key p0
    /\ default p = default p0
    /\ feature_group p0 = None
    /\ feature_group p = Some (s ++ add_layer_js).
Proof.
  unfold st_folium, bind, ret, raise.
  destruct (displayed_map is_map fig) as [m|e]; [|discriminate].
  destruct (generate_leaflet_string_full m true "map_div") as [[m' mp] [leaflet|e]];
    [|discriminate].
  destruct (match m' with
            | Element _ _ _ _ => (get_full_id m', leaflet)
            | DualMap _ _ _ m1 m2 =>
                (get_full_id m1, Text.replace (get_full_id m2) "map_div2" leaflet)
            end) as [m_id leaflet'].
  destruct (defaults view returned_objects) as [d|e]; [|discriminate].
  destruct (generate_leaflet_string (set_id g "feature_group") true "feature_group")
    as [s|e]; [|discriminate].
  intros H. injection H as <-. eexists. eexists.
  split; [reflexivity|]. cbn. repeat split; reflexivity.
Qed.

Lemma feature_group_does_not_remount_witness :
  exists p p0,
    st_folium by_name_is_map [] fig_bounded map_fig None None
      (Some feature_group_demo) = ret p
    /\ st_folium by_name_is_map [] fig_bounded map_fig None None None = ret p0
    /\ key p = key p0.
Proof.
  destruct (st_folium by_name_is_map [] fig_bounded map_fig None None
              (Some feature_group_demo)) as [p|e] eqn:E.
  - destruct (feature_group_does_not_remount by_name_is_map [] fig_bounded map_fig
                None None feature_group_demo p E)
      as (p0 & s & H0 & _ & _ & Hk & _).
    exists p, p0. repeat split; assumption.
  - vm_compute in E. discriminate.
Defined.

(** ** The key in the hashed text *)

Lemma prefix_has_char c p s :
  prefix p s = true -> has_char c p = true -> has_char c s = true.
Proof.
  revert s. induction p as [|d p IH]; intros s Hp Hc; [discriminate|].
  destruct s as [|e s]; [discriminate|]. cbn in Hp.
  destruct (ascii_dec d e) as [->|]; [|discriminate].
  cbn in Hc |- *. destruct (Ascii.eqb c e); [reflexivity|]. cbn in *.
  apply (IH s); assumption.
Qed.

Lemma skip_class_has_char cls t c r :
  Re.skip_class cls t = String c r -> has_char c t = true.
Proof.
  induction t as [|d t IH]; [discriminate|]. cbn [Re.skip_class].
  destruct (cls d).
  - intros H. cbn. rewrite (IH H). apply orb_true_r.
  - intros H. injection H as -> _. apply has_char_head.
Qed.

Lemma skip_class_app cls t z :
  Re.skip_class cls (t ++ z)
  = match Re.skip_class cls t with
    | EmptyString => Re.skip_class cls z
    | String e r => String e r ++ z
    end.
Proof.
  induction t as [|d t IH]; [cbn; destruct (Re.skip_class cls z); reflexivity|].
  cbn [append Re.skip_class]. destruct (cls d); [exact IH | reflexivity].
Qed.

Lemma no_slash_no_tile w : has_char "/" w = false -> Re.url_pattern w = None.
Proof.
  intros H. unfold Re.url_pattern. destruct (prefix "maps/" w) eqn:E; [|reflexivity].
  rewrite (prefix_has_char "/" "maps/" w E eq_refl) in H. discriminate.
Qed.

Lemma slash_head_none (x : string) :
  has_char "/" x = false ->
  match x with
  | String "/" r => Some r
  | _ => None
  end = None.
Proof.
  destruct x as [|e r]; [reflexivity|]. intros H.
  destruct (ascii_dec e "/") as [->|Hn].
  - rewrite has_char_head in H. discriminate.
  - destruct e as [[] [] [] [] [] [] [] []]; try reflexivity.
    contradiction Hn. reflexivity.
Qed.

Lemma tile_tail_none cls (k : string) :
  has_char "/" k = false ->
  match Re.skip_class cls k with
  | String "/" r => Some r
  | _ => None
  end = None.
Proof.
  intros H. apply slash_head_none.
  destruct (Re.skip_class cls k) as [|e r] eqn:E; [reflexivity|].
  destruct (has_char "/" (String e r)) eqn:Eh; [|reflexivity].
  destruct (skip_class_suffix cls k) as [m Hm]. rewrite E in Hm.
  rewrite Hm, has_char_app, Eh, orb_true_r in H. discriminate.
Qed.

Ltac no_slash_prefix Hk :=
  match goal with
  | |- context [prefix ?p ?k] =>
      let E := fresh in
      destruct (prefix p k) eqn:E;
      [rewrite (prefix_has_char "/" p k E eq_refl) in Hk; discriminate | reflexivity]
  end.

(** A key without a slash takes no part in a match of the tile pattern. *)
Lemma url_pattern_cuts_before_key x k :
  has_char "/" k = false -> cuts_before Re.url_pattern x k.
Proof.
  intros Hk u w _ Hw. unfold Re.url_pattern.
  destruct w as [|c1 w]; [contradiction|]. cbn [append prefix].
  destruct (ascii_dec "m" c1) as [<-|]; [|reflexivity].
  destruct w as [|c2 w]; [cbn [append]; no_slash_prefix Hk|]. cbn [append prefix].
  destruct (ascii_dec "a" c2) as [<-|]; [|reflexivity].
  destruct w as [|c3 w]; [cbn [append]; no_slash_prefix Hk|]. cbn [append prefix].
  destruct (ascii_dec "p" c3) as [<-|]; [|reflexivity].
  destruct w as [|c4 w]; [cbn [append]; no_slash_prefix Hk|]. cbn [append prefix].
  destruct (ascii_dec "s" c4) as [<-|]; [|reflexivity].
  destruct w as [|c5 w]; [cbn [append]; no_slash_prefix Hk|]. cbn [append prefix].
  destruct (ascii_dec "/" c5) as [<-|]; [|reflexivity].
  cbn [Text.drop]. destruct w as [|d t]; cbn [append option_map].
  - destruct k as [|d t]; [reflexivity|].
    destruct (Re.dash_lower_alnum d); [|reflexivity].
    apply tile_tail_none. apply (has_char_tail "/" d). exact Hk.
  - destruct (Re.dash_lower_alnum d); [|reflexivity].
    rewrite skip_class_app.
    destruct (Re.skip_class Re.dash_lower_alnum t) as [|e r].
    + cbn [option_map]. apply tile_tail_none. exact Hk.
    + cbn [append]. destruct (ascii_dec e "/") as [->|Hn]; [reflexivity|].
      destruct e as [[] [] [] [] [] [] [] []]; reflexivity.
Qed.

Lemma app_same_length_eq (a b c d : string) :
  a ++ b = c ++ d -> String.length a = String.length c -> a = c.
Proof.
  revert c. induction a as [|x a IH]; intros c H Hl.
  - destruct c; [reflexivity | discriminate].
  - destruct c as [|y c]; [discriminate|]. cbn in H, Hl.
    injection H as -> H. f_equal. apply (IH c); [exact H | lia].
Qed.

Lemma standardized_js_plain_key s k :
  has_char "/" (Text.str k) = false ->
  standardized_js s k
  = Re.sub Re.url_pattern (Re.sub Re.pattern s) ++ Text.str k ++ Text.str k.
Proof.
  intros Hk. unfold standardized_js.
  rewrite (sub_cut _ url_pattern_consumes)
    by (apply url_pattern_cuts_before_key; exact Hk).
  rewrite (sub_nowhere Re.url_pattern (Text.str k)).
  - rewrite app_assoc_s. reflexivity.
  - intros u w E. apply no_slash_no_tile. rewrite E, has_char_app in Hk.
    apply orb_false_iff in Hk. apply Hk.
Qed.

Lemma js_hash_step_same_text a b k :
  differ_only tile_context a b -> standardized_js a k = standardized_js b k.
Proof.
  induction 1 as [a b H | a | a b c _ IH1 _ IH2].
  - apply differ_once_same_text. exact H.
  - reflexivity.
  - rewrite IH1. exact IH2.
Qed.

(** C4 (amended): the digest is the SHA-256 of the normalized script with
    the key's string form appended after each pass.  Two scripts that differ
    only in identifier suffixes (["_"] and a non-empty run of [[a-z0-9]])
    and in tile path segments (["maps/"], a non-empty run of [[-a-z0-9]],
    ["/"]) that stand where both passes read them as such (the text before
    the segment is empty or ends outside [[-a-z0-9_]], and with its
    identifier suffixes stripped does not end with ["maps/"]) give the same
    digest under keys with the same string form.  Holding the script fixed,
    two keys whose string forms differ and contain no slash give different
    hashed texts, so the digest changes unless SHA-256 collides on them. *)
Theorem js_hash_stable a b key1 key2 :
  (differ_only tile_context a b ->
   Text.str key1 = Text.str key2 ->
   generate_js_hash a key1 = generate_js_hash b key2)
  /\ generate_js_hash a key1 = Sha256.hexdigest (standardized_js a key1)
  /\ (has_char "/" (Text.str key1) = false ->
      has_char "/" (Text.str key2) = false ->
      Text.str key1 <> Text.str key2 ->
      standardized_js a key1
      = Re.sub Re.url_pattern (Re.sub Re.pattern a) ++ Text.str key1 ++ Text.str key1
      /\ standardized_js a key1 <> standardized_js a key2).
Proof.
  split; [|split].
  - intros Hab Hk.
    change (Sha256.hexdigest (standardized_js a key1)
            = Sha256.hexdigest (standardized_js b key2)).
    rewrite (js_hash_step_same_text a b key1 Hab). unfold standardized_js.
    rewrite Hk. reflexivity.
  - reflexivity.
  - intros H1 H2 Hne. split; [apply standardized_js_plain_key; exact H1|].
    rewrite (standardized_js_plain_key a key1 H1), (standardized_js_plain_key a key2 H2).
    intros E. apply app_inv_head_s in E. apply Hne.
    apply (app_same_length_eq _ _ _ _ E).
    apply (f_equal String.length) in E. rewrite !length_app_s in E. lia.
Qed.

Lemma js_hash_stable_witness :
  generate_js_hash script_1a None = generate_js_hash script_2b (Some "None")
  /\ standardized_js script_1a (Some "a") <> standardized_js script_1a (Some "b").
Proof.
  split.
  - apply (proj1 (js_hash_stable script_1a script_2b None (Some "None")));
      [|reflexivity].
    apply rt_trans with
      (y := "var t_2b = L.tileLayer('https://e.com/v1/maps/ab-1/tiles');").
    + apply rt_step.
      refine (suffix_differs tile_context "var t" "1a" "2b"
                " = L.tileLayer('https://e.com/v1/maps/ab-1/tiles');" _ _ _ _);
        [discriminate | discriminate | reflexivity ..].
    + apply rt_step.
      refine (tile_differs tile_context "var t_2b = L.tileLayer('https://e.com/v1/"
                "ab-1" "cd-2" "tiles');" _ _ _ _ _);
        [discriminate | discriminate | vm_compute; reflexivity ..].
  - apply (proj2 (proj2 (js_hash_stable script_1a script_1a (Some "a") (Some "b"))));
      [reflexivity | reflexivity | discriminate].
Defined.

(** ** [str.replace], one step at a time *)

Lemma drop_length n s : String.length (Text.drop n s) <= String.length s - n.
Proof.
  revert s. induction n as [|n IH]; intros s; cbn [Text.drop]; [lia|].
  destruct s as [|c s]; [cbn; lia|]. cbn [String.length]. specialize (IH s). lia.
Qed.

Lemma replace_scan_fuel k v f1 :
  k <> "" ->
  forall f2 s, String.length s <= f1 -> String.length s <= f2 ->
    Text.replace_scan f1 k v s = Text.replace_scan f2 k v s.
Proof.
  intros Hk. induction f1 as [|f1 IH]; intros f2 s H1 H2.
  - destruct s; [destruct f2; reflexivity | cbn in H1; lia].
  - destruct s as [|c t]; [destruct f2; reflexivity|].
    destruct f2 as [|f2]; [cbn in H2; lia|]. cbn [Text.replace_scan].
    cbn [String.length] in H1, H2.
    assert (Hd : String.length (Text.drop (String.length k) (String c t))
                 <= String.length t).
    { pose proof (drop_length (String.length k) (String c t)) as Hd.
      destruct k; [contradiction|]. cbn [String.length] in *. lia. }
    destruct (prefix k (String c t)); f_equal; apply IH; lia.
Qed.

Lemma drop_app k rest : Text.drop (String.length k) (k ++ rest) = rest.
Proof. induction k as [|c k IH]; [reflexivity | exact IH]. Qed.

Lemma prefix_app_self k rest : prefix k (k ++ rest) = true.
Proof.
  induction k as [|c k IH]; [destruct rest; reflexivity|]. cbn.
  destruct (ascii_dec c c); [exact IH | contradiction].
Qed.

Lemma replace_hit k v rest :
  k <> "" -> Text.replace k v (k ++ rest) = v ++ Text.replace k v rest.
Proof.
  intros Hk. rewrite !replace_nonempty_key by exact Hk.
  destruct k as [|c k]; [contradiction|].
  cbn [append String.length Text.replace_scan].
  change (String c (k ++ rest)) with (String c k ++ rest).
  rewrite prefix_app_self. f_equal.
  change (Text.drop (S (String.length k)) (String c k ++ rest))
    with (Text.drop (String.length (String c k)) (String c k ++ rest)).
  rewrite drop_app. apply replace_scan_fuel; [discriminate | | lia].
  rewrite length_app_s. lia.
Qed.

Lemma replace_miss k v c t :
  k <> "" -> prefix k (String c t) = false ->
  Text.replace k v (String c t) = String c (Text.replace k v t).
Proof.
  intros Hk Hp. rewrite !replace_nonempty_key by exact Hk.
  cbn [String.length Text.replace_scan]. rewrite Hp. reflexivity.
Qed.

Lemma replace_nil k v : k <> "" -> Text.replace k v "" = "".
Proof. intros Hk. rewrite replace_nonempty_key by exact Hk. reflexivity. Qed.





(** ** The returned script, piece by piece *)








(** ** The substitution pass, word by word *)

Lemma prefix_app_l k a b : prefix k a = true -> prefix k (a ++ b) = true.
Proof.
  revert a. induction k as [|d k IH]; intros a H; [apply prefix_nil|].
  destruct a as [|c a]; [discriminate|]. cbn [append prefix] in *.
  destruct (ascii_dec d c); [apply IH; exact H | discriminate].
Qed.

Lemma occurs_app_l k a b : Text.occurs k a = true -> Text.occurs k (a ++ b) = true.
Proof.
  induction a as [|c a IH]; intros H.
  - cbn [Text.occurs] in H. rewrite orb_false_r in H.
    destruct k; [|discriminate]. destruct b; reflexivity.
  - cbn [Text.occurs] in H. apply orb_true_iff in H.
    cbn [append Text.occurs]. apply orb_true_iff. destruct H as [H|H].
    + left. apply (prefix_app_l k (String c a) b H).
    + right. apply IH. exact H.
Qed.

Lemma occurs_self k : Text.occurs k k = true.
Proof.
  destruct k as [|c k]; [reflexivity|]. cbn [Text.occurs].
  rewrite <- (app_nil_r_s (String c k)) at 2. rewrite prefix_app_self. reflexivity.
Qed.

Lemma occurs_nil k : k <> "" -> Text.occurs k "" = false.
Proof. destruct k; [contradiction | reflexivity]. Qed.

Lemma dict_get_Some M k v :
  dict_get M k = Some v -> In k (keys M) /\ In v (map snd M).
Proof.
  induction M as [|[k1 v1] M IH]; cbn [dict_get keys map fst snd In]; [discriminate|].
  destruct (String.eqb_spec k1 k) as [->|Hn].
  - intros H. injection H as <-. split; left; reflexivity.
  - intros H. destruct (IH H) as [H1 H2]. split; right; assumption.
Qed.

Lemma dict_get_None M k : dict_get M k = None -> ~ In k (keys M).
Proof.
  induction M as [|[k1 v1] M IH]; cbn [dict_get keys map fst In]; [tauto|].
  destruct (String.eqb_spec k1 k) as [->|Hn]; [discriminate|].
  intros H [H1|H1]; [contradiction | exact (IH H H1)].
Qed.

Section Words.

Variable idc : ascii -> bool.

Lemma take_skip s : s = take_class idc s ++ Re.skip_class idc s.
Proof.
  induction s as [|c t IH]; [reflexivity|]. cbn [take_class Re.skip_class].
  destruct (idc c); [cbn [append]; f_equal; exact IH | reflexivity].
Qed.

Lemma take_class_all s : all_in idc (take_class idc s) = true.
Proof.
  induction s as [|c t IH]; [reflexivity|]. cbn [take_class].
  destruct (idc c) eqn:E; [|reflexivity]. cbn [all_in]. rewrite E. exact IH.
Qed.

Lemma skip_class_length s :
  String.length (Re.skip_class idc s) <= String.length s.
Proof.
  induction s as [|c t IH]; [cbn; lia|]. cbn [Re.skip_class].
  destruct (idc c); cbn [String.length]; lia.
Qed.

Lemma flatten_app l1 l2 : flatten (l1 ++ l2) = flatten l1 ++ flatten l2.
Proof.
  induction l1 as [|tok l1 IH]; [reflexivity|]. cbn [List.app flatten].
  rewrite IH, app_assoc_s. reflexivity.
Qed.

Lemma tokens_scan_spec f :
  forall s, String.length s <= f ->
    flatten (tokens_scan f idc s) = s
    /\ well_formed idc (tokens_scan f idc s)
    /\ (starts_outside idc s = true -> starts_sep (tokens_scan f idc s)).
Proof.
  induction f as [|f IH]; intros s Hlen.
  - destruct s; [|cbn in Hlen; lia]. cbn. repeat split.
  - destruct s as [|c t]; [cbn; repeat split|].
    cbn [tokens_scan]. destruct (idc c) eqn:E.
    + destruct (IH (Re.skip_class idc (String c t))) as (F & W & S0).
      { pose proof (skip_class_length t). cbn [Re.skip_class]. rewrite E.
        cbn [String.length] in Hlen. lia. }
      pose proof (S0 (skip_class_starts_outside idc _)) as S1.
      split; [|split].
      * cbn [flatten token_text]. rewrite F. symmetry. apply take_skip.
      * cbn [well_formed]. split; [|split; [|split]].
        -- cbn [take_class]. rewrite E. discriminate.
        -- apply take_class_all.
        -- exact S1.
        -- exact W.
      * cbn [starts_outside]. rewrite E. discriminate.
    + destruct (IH t) as (F & W & _); [cbn [String.length] in Hlen; lia|].
      split; [|split].
      * cbn [flatten token_text append]. rewrite F. reflexivity.
      * cbn [well_formed]. split; assumption.
      * intros _. exact I.
Qed.

Lemma tokens_flatten s : flatten (tokens idc s) = s.
Proof. apply (tokens_scan_spec (String.length s) s). lia. Qed.

Lemma tokens_well_formed s : well_formed idc (tokens idc s).
Proof. apply (tokens_scan_spec (String.length s) s). lia. Qed.

Lemma prefix_app_outside k :
  forall x z, all_in idc k = true -> starts_outside idc z = true ->
              prefix k (x ++ z) = prefix k x.
Proof.
  induction k as [|d k IH]; intros x z Hk Hz.
  - rewrite !prefix_nil. reflexivity.
  - cbn [all_in] in Hk. apply andb_true_iff in Hk. destruct Hk as [Hd Hk].
    destruct x as [|c x]; cbn [append].
    + destruct z as [|e z]; [reflexivity|]. cbn [starts_outside] in Hz.
      cbn [prefix]. destruct (ascii_dec d e) as [->|]; [|reflexivity].
      rewrite Hd in Hz. discriminate.
    + cbn [prefix]. destruct (ascii_dec d c); [apply IH; assumption | reflexivity].
Qed.

Lemma prefix_sep k c t :
  k <> "" -> all_in idc k = true -> idc c = false -> prefix k (String c t) = false.
Proof.
  intros Hk Ha Hc. destruct k as [|d k]; [contradiction|].
  cbn [all_in] in Ha. apply andb_true_iff in Ha. destruct Ha as [Hd _].
  cbn [prefix]. destruct (ascii_dec d c) as [->|]; [congruence | reflexivity].
Qed.

Lemma occurs_app_outside k x z :
  k <> "" -> all_in idc k = true -> starts_outside idc z = true ->
  Text.occurs k (x ++ z) = Text.occurs k x || Text.occurs k z.
Proof.
  intros Hk Ha Hz. induction x as [|c x IH].
  - cbn [append]. rewrite (occurs_nil k Hk). reflexivity.
  - cbn [append Text.occurs]. rewrite IH.
    rewrite <- (prefix_app_outside k (String c x) z Ha Hz). cbn [append].
    rewrite orb_assoc. reflexivity.
Qed.

Lemma flatten_starts_outside l :
  well_formed idc l -> starts_sep l -> starts_outside idc (flatten l) = true.
Proof.
  destruct l as [|[w|c] r]; cbn [well_formed starts_sep flatten token_text append
                                  starts_outside].
  - reflexivity.
  - intros _ [].
  - intros [Hc _] _. rewrite Hc. reflexivity.
Qed.

(** An occurrence of a key in the text of a token list lies inside one of
    its words. *)
Lemma occurs_flatten k l :
  k <> "" -> all_in idc k = true -> well_formed idc l ->
  Text.occurs k (flatten l) = true ->
  exists w, In (Word w) l /\ Text.occurs k w = true.
Proof.
  intros Hk Ha. induction l as [|[w|c] r IH]; cbn [flatten token_text well_formed].
  - rewrite (occurs_nil k Hk). discriminate.
  - intros (Hw & Haw & Hs & Hr).
    rewrite occurs_app_outside
      by (try assumption; apply flatten_starts_outside; assumption).
    intros H. apply orb_true_iff in H. destruct H as [H|H].
    + exists w. split; [left; reflexivity | exact H].
    + destruct (IH Hr H) as (w' & Hin & Ho). exists w'.
      split; [right; exact Hin | exact Ho].
  - intros (Hc & Hr). cbn [append Text.occurs].
    rewrite (prefix_sep k c _ Hk Ha Hc). cbn [orb]. intros H.
    destruct (IH Hr H) as (w' & Hin & Ho). exists w'.
    split; [right; exact Hin | exact Ho].
Qed.

Lemma word_in_flatten k l w :
  In (Word w) l -> Text.occurs k w = true -> Text.occurs k (flatten l) = true.
Proof.
  intros Hin Ho. induction l as [|tok r IH]; [contradiction|].
  cbn [flatten]. destruct Hin as [->|Hin].
  - apply occurs_app_l. exact Ho.
  - apply occurs_app_r. apply IH. exact Hin.
Qed.

Lemma word_of_tokens k v w :
  In (Word w) (tokens idc v) -> Text.occurs k w = true -> Text.occurs k v = true.
Proof.
  intros Hin Ho. rewrite <- (tokens_flatten v).
  apply (word_in_flatten k _ w Hin Ho).
Qed.

Lemma expand_word M w r :
  expand idc M (Word w :: r)
  = (match dict_get M w with
     | Some v => tokens idc v
     | None => [Word w]
     end ++ expand idc M r)%list.
Proof. reflexivity. Qed.

Lemma expand_sep M c r : expand idc M (Sep c :: r) = Sep c :: expand idc M r.
Proof. reflexivity. Qed.

Lemma expand_app M l1 l2 :
  expand idc M (l1 ++ l2)%list = (expand idc M l1 ++ expand idc M l2)%list.
Proof. unfold expand. apply flat_map_app. Qed.

Lemma expand_key_free M l :
  (forall w, In (Word w) l -> dict_get M w = None) -> expand idc M l = l.
Proof.
  induction l as [|[w|c] r IH]; intros H; [reflexivity| |].
  - rewrite expand_word, (H w (or_introl eq_refl)), IH; [reflexivity|].
    intros w' Hw'. apply H. right. exact Hw'.
  - rewrite expand_sep, IH; [reflexivity|].
    intros w' Hw'. apply H. right. exact Hw'.
Qed.

Lemma expand_empty l : expand idc [] l = l.
Proof. apply expand_key_free. reflexivity. Qed.

Lemma well_formed_app l1 l2 :
  well_formed idc l1 -> well_formed idc l2 -> starts_sep l2 ->
  well_formed idc (l1 ++ l2).
Proof.
  intros H1 H2 Hs. induction l1 as [|[w|c] r IH]; cbn [List.app well_formed] in *.
  - exact H2.
  - destruct H1 as (Hw & Ha & Hr & Hwf). split; [exact Hw|]. split; [exact Ha|].
    split; [|apply IH; exact Hwf].
    destruct r as [|[w'|c'] r']; cbn [List.app starts_sep] in *;
      [exact Hs | contradiction | exact I].
  - destruct H1 as [Hc Hwf]. split; [exact Hc | apply IH; exact Hwf].
Qed.

Lemma starts_sep_expand M l : starts_sep l -> starts_sep (expand idc M l).
Proof.
  destruct l as [|[w|c] r]; [intros _; exact I | intros [] | intros _; exact I].
Qed.

Lemma well_formed_expand M l : well_formed idc l -> well_formed idc (expand idc M l).
Proof.
  induction l as [|[w|c] r IH]; intros Hwf; [exact I| |].
  - destruct Hwf as (Hw & Ha & Hs & Hr). rewrite expand_word.
    apply well_formed_app; [|apply IH; exact Hr | apply starts_sep_expand; exact Hs].
    destruct (dict_get M w); [apply tokens_well_formed|].
    cbn [well_formed starts_sep]. repeat split; assumption.
  - destruct Hwf as [Hc Hr]. rewrite expand_sep. cbn [well_formed].
    split; [exact Hc | apply IH; exact Hr].
Qed.

(** A word of the expanded list is a word of a value that took the place of
    a key, or a word of the list that is no key. *)
Lemma word_of_expand M l w :
  In (Word w) (expand idc M l) ->
  (exists w0 v, In (Word w0) l /\ dict_get M w0 = Some v
                /\ In (Word w) (tokens idc v))
  \/ (In (Word w) l /\ dict_get M w = None).
Proof.
  induction l as [|[w1|c] r IH]; [intros []| |].
  - rewrite expand_word. intros H. apply in_app_or in H. destruct H as [H|H].
    + destruct (dict_get M w1) as [v|] eqn:E.
      * left. exists w1, v. split; [left; reflexivity|]. split; [exact E | exact H].
      * destruct H as [H|[]]. injection H as <-. right.
        split; [left; reflexivity | exact E].
    + destruct (IH H) as [(w0 & v & H1 & H2 & H3) | [H1 H2]].
      * left. exists w0, v. split; [right; exact H1|]. split; assumption.
      * right. split; [right; exact H1 | exact H2].
  - rewrite expand_sep. intros [H|H]; [discriminate|].
    destruct (IH H) as [(w0 & v & H1 & H2 & H3) | [H1 H2]].
    + left. exists w0, v. split; [right; exact H1|]. split; assumption.
    + right. split; [right; exact H1 | exact H2].
Qed.

(** [str.replace] leaves alone a word in which the key does not occur. *)
Lemma replace_word k v w z :
  k <> "" -> all_in idc k = true -> Text.occurs k w = false ->
  starts_outside idc z = true ->
  Text.replace k v (w ++ z) = w ++ Text.replace k v z.
Proof.
  intros Hk Ha Ho Hz. induction w as [|c w IH]; [reflexivity|].
  apply occurs_cons_false in Ho. destruct Ho as [Hp Ho].
  cbn [append]. rewrite replace_miss; [rewrite (IH Ho); reflexivity | exact Hk |].
  change (String c (w ++ z)) with (String c w ++ z).
  rewrite prefix_app_outside by assumption. exact Hp.
Qed.

(** One [str.replace] replaces the words that are the key, when the key
    occurs in no other word. *)
Lemma replace_flatten k v l :
  k <> "" -> all_in idc k = true -> well_formed idc l ->
  (forall w, In (Word w) l -> Text.occurs k w = true -> w = k) ->
  Text.replace k v (flatten l) = flatten (expand idc [(k, v)] l).
Proof.
  intros Hk Ha. induction l as [|[w|c] r IH]; intros Hwf Hcl.
  - apply replace_nil. exact Hk.
  - destruct Hwf as (Hw & Haw & Hs & Hr). rewrite expand_word.
    cbn [flatten token_text dict_get].
    assert (Hr' : forall w', In (Word w') r -> Text.occurs k w' = true -> w' = k).
    { intros w' H. apply Hcl. right. exact H. }
    destruct (String.eqb_spec k w) as [<-|Hne].
    + rewrite replace_hit by exact Hk. rewrite flatten_app, tokens_flatten.
      f_equal. apply IH; assumption.
    + rewrite replace_word; try assumption.
      * cbn [List.app flatten token_text]. f_equal. apply IH; assumption.
      * destruct (Text.occurs k w) eqn:E; [|reflexivity].
        exfalso. apply Hne. symmetry. apply Hcl; [left; reflexivity | exact E].
      * apply flatten_starts_outside; assumption.
  - destruct Hwf as [Hc Hr]. rewrite expand_sep. cbn [flatten token_text append].
    rewrite replace_miss; [|exact Hk | apply prefix_sep; assumption].
    f_equal. apply IH; [exact Hr|]. intros w' H. apply Hcl. right. exact H.
Qed.

(** Replacing one key and then the others is replacing them all at once,
    when no word of the first value is one of the other keys. *)
Lemma expand_compose k v M l :
  (forall w, In (Word w) (tokens idc v) -> dict_get M w = None) ->
  expand idc M (expand idc [(k, v)] l) = expand idc ((k, v) :: M) l.
Proof.
  intros Hv. induction l as [|[w|c] r IH]; [reflexivity| |].
  - rewrite !expand_word, expand_app, IH. cbn [dict_get].
    destruct (String.eqb k w).
    + rewrite (expand_key_free M _ Hv). reflexivity.
    + rewrite expand_word. cbn [expand flat_map]. rewrite app_nil_r. reflexivity.
  - rewrite !expand_sep, IH. reflexivity.
Qed.

Lemma substitute_flatten M :
  forall l,
    (forall k, In k (keys M) -> k <> "" /\ all_in idc k = true) ->
    (forall k v, In k (keys M) -> In v (map snd M) -> Text.occurs k v = false) ->
    well_formed idc l ->
    (forall w k, In (Word w) l -> In k (keys M) -> Text.occurs k w = true -> w = k) ->
    substitute M (flatten l) = flatten (expand idc M l).
Proof.
  induction M as [|[k v] M IH]; intros l Hkeys Hapart Hwf Hcl.
  - rewrite expand_empty. reflexivity.
  - cbn [substitute]. cbn [keys map fst snd] in Hkeys, Hapart, Hcl.
    destruct (Hkeys k (or_introl eq_refl)) as [Hk Ha].
    rewrite (replace_flatten k v l Hk Ha Hwf)
      by (intros w Hw; apply (Hcl w k Hw); left; reflexivity).
    assert (Hfree : forall w, In (Word w) (tokens idc v) -> dict_get M w = None).
    { intros w Hw. destruct (dict_get M w) as [v'|] eqn:E; [|reflexivity].
      apply dict_get_Some in E. destruct E as [E _].
      pose proof (word_of_tokens w v w Hw (occurs_self w)) as Ho.
      rewrite (Hapart w v) in Ho; [discriminate | right; exact E | left; reflexivity]. }
    rewrite IH.
    + rewrite (expand_compose k v M l Hfree). reflexivity.
    + intros k' Hk'. apply Hkeys. right. exact Hk'.
    + intros k' v' Hk' Hv'. apply Hapart; right; assumption.
    + apply well_formed_expand. exact Hwf.
    + intros w k' Hw Hk' Ho.
      apply word_of_expand in Hw. destruct Hw as [(w0 & v0 & H1 & H2 & H3) | [H1 H2]].
      * cbn [dict_get] in H2. destruct (String.eqb k w0); [|discriminate].
        injection H2 as <-.
        pose proof (word_of_tokens k' v w H3 Ho) as Hov.
        rewrite (Hapart k' v) in Hov;
          [discriminate | right; exact Hk' | left; reflexivity].
      * apply (Hcl w k' H1); [right; exact Hk' | exact Ho].
Qed.

Lemma expand_clears M l k :
  (forall k, In k (keys M) -> k <> "" /\ all_in idc k = true) ->
  (forall k v, In k (keys M) -> In v (map snd M) -> Text.occurs k v = false) ->
  well_formed idc l ->
  (forall w k, In (Word w) l -> In k (keys M) -> Text.occurs k w = true -> w = k) ->
  In k (keys M) ->
  Text.occurs k (flatten (expand idc M l)) = false.
Proof.
  intros Hkeys Hapart Hwf Hcl Hk.
  destruct (Text.occurs k (flatten (expand idc M l))) eqn:E; [|reflexivity].
  destruct (Hkeys k Hk) as [Hne Ha].
  apply (occurs_flatten k _ Hne Ha (well_formed_expand M l Hwf)) in E.
  destruct E as (w & Hw & Ho).
  apply word_of_expand in Hw. destruct Hw as [(w0 & v0 & H1 & H2 & H3) | [H1 H2]].
  - apply dict_get_Some in H2. destruct H2 as [_ H2].
    pose proof (word_of_tokens k v0 w H3 Ho) as Hov.
    rewrite (Hapart k v0 Hk H2) in Hov. discriminate.
  - pose proof (Hcl w k H1 Hk Ho) as ->.
    exfalso. exact (dict_get_None M k H2 Hk).
Qed.

Lemma keys_are_words_spec M :
  keys_are_words idc M = true ->
  forall k, In k (keys M) -> k <> "" /\ all_in idc k = true.
Proof.
  unfold keys_are_words. rewrite forallb_forall. intros H k Hk.
  specialize (H k Hk). apply andb_true_iff in H. destruct H as [H1 H2].
  split; [|exact H2]. intros ->. discriminate.
Qed.

Lemma ids_apart_spec M :
  ids_apart M = true ->
  forall k v, In k (keys M) -> In v (map snd M) -> Text.occurs k v = false.
Proof.
  unfold ids_apart. rewrite forallb_forall. intros H k v Hk Hv.
  specialize (H k Hk). rewrite forallb_forall in H. specialize (H v Hv).
  apply negb_true_iff in H. exact H.
Qed.

Lemma whole_words_spec K s :
  whole_words idc K s = true ->
  forall w k, In (Word w) (tokens idc s) -> In k K -> Text.occurs k w = true -> w = k.
Proof.
  unfold whole_words. rewrite forallb_forall. intros H w k Hw Hk Ho.
  specialize (H (Word w) Hw). cbn beta iota in H. unfold word_ok in H.
  rewrite forallb_forall in H. specialize (H k Hk). rewrite Ho in H.
  cbn [negb orb] in H. apply String.eqb_eq in H. symmetry. exact H.
Qed.

(** Under [tidy], the pass of [str.replace] calls, one key after the other,
    replaces every word that is an original identifier by its stable
    identifier and leaves the rest of the script as it is; no key is left. *)
Lemma substitute_is_resolve M s :
  tidy idc M s = true ->
  substitute M s = resolve idc M s
  /\ forall k, In k (keys M) -> Text.occurs k (resolve idc M s) = false.
Proof.
  unfold tidy. intros H. apply andb_true_iff in H. destruct H as [H H3].
  apply andb_true_iff in H. destruct H as [H1 H2].
  pose proof (keys_are_words_spec M H1) as Hkeys.
  pose proof (ids_apart_spec M H3) as Hapart.
  pose proof (whole_words_spec (keys M) s H2) as Hcl.
  unfold resolve. split.
  - rewrite <- (tokens_flatten s) at 1.
    apply substitute_flatten; try assumption. apply tokens_well_formed.
  - intros k Hk. apply expand_clears; try assumption. apply tokens_well_formed.
Qed.



End Words.

(** ** Two runs of the traversal *)



(** ** Completeness of the mapping *)

(** C1 as stated fails.  The feature group that [st_folium] stabilises has
    [_id = "feature_group"] and is given [base_id = "feature_group"]: its
    original identifier is a key of the mapping and still occurs in the
    returned script.  Two visited nodes that carry the same identifier
    share one entry, which holds the identifier given to the later one.
    An identifier that stands inside a longer word is re-created by its own
    replacement (["xx0"] becomes ["x0"]), though it is a word of [[a-z0-9]]
    and does not occur in its stable identifier.  An identifier that is
    given again as the stable identifier stays, though it is a word and
    occurs only as a whole word.  The empty identifier occurs in every
    script. *)
Lemma original_identifier_survives :
  generate_leaflet_string feature_group_demo true "feature_group"
  = ret ("var feature_group_feature_group;" ++ Text.nl
         ++ "var marker_feature_group_0;")
  /\ snd (fst (generate_leaflet_string_full feature_group_demo true "feature_group"))
     = [("feature_group", "feature_group"); ("c3", "feature_group_0")]
  /\ Text.occurs "feature_group"
       ("var feature_group_feature_group;" ++ Text.nl
        ++ "var marker_feature_group_0;") = true
  /\ visited twins true "0" = [("x", "0"); ("x", "0_0")]
  /\ snd (fst (generate_leaflet_string_full twins true "0")) = [("x", "0_0")]
  /\ snd (_generate_leaflet_string inner_id_map true "0" []) = ret "var xx0;"
  /\ snd (fst (generate_leaflet_string_full inner_id_map true "0")) = [("x0", "0")]
  /\ generate_leaflet_string inner_id_map true "0" = ret "var x0;"
  /\ Text.occurs "x0" "var x0;" = true
  /\ keys_are_words Re.lower_alnum [("x0", "0")] = true
  /\ ids_apart [("x0", "0")] = true
  /\ whole_words Re.lower_alnum ["x0"] "var xx0;" = false
  /\ snd (_generate_leaflet_string same_id_map true "a1" []) = ret "var map_a1;"
  /\ snd (fst (generate_leaflet_string_full same_id_map true "a1")) = [("a1", "a1")]
  /\ generate_leaflet_string same_id_map true "a1" = ret "var map_a1;"
  /\ Text.occurs "a1" "var map_a1;" = true
  /\ keys_are_words Re.lower_alnum [("a1", "a1")] = true
  /\ whole_words Re.lower_alnum ["a1"] "var map_a1;" = true
  /\ ids_apart [("a1", "a1")] = false
  /\ snd (fst (generate_leaflet_string_full empty_id_map true "0")) = [("", "0")]
  /\ generate_leaflet_string empty_id_map true "0" = ret "0a0b0"
  /\ Text.occurs "" "0a0b0" = true.
Proof. repeat split; vm_compute; reflexivity. Qed.

(** C1 (amended): the mapping built by [generate_leaflet_string] is the
    empty dict with one assignment per visited node, in visiting order, each
    keyed by the identifier the node had before it was overwritten; so every
    visited node's original identifier is a key, and when these identifiers
    are pairwise distinct the mapping has exactly one entry per visited
    node, from its original to its stable identifier.  For a class [idc] of
    identifier characters, let a word of a script be a maximal run of such
    characters.  When every original identifier is a non-empty word, the
    original identifiers occur in the assembled script as whole words only,
    and no original identifier occurs in a stable identifier, then the
    returned script is the assembled script with every word that is an
    original identifier replaced by its stable identifier, and it holds no
    occurrence of any original identifier. *)
Theorem mapping_complete idc m nested base :
  let mapping := snd (fst (generate_leaflet_string_full m nested base)) in
  mapping = dict_update [] (visited m nested base)
  /\ hd_error (visited m nested base) = Some (node_id m, base)
  /\ (forall k, In k (map fst (visited m nested base)) -> In k (keys mapping))
  /\ (NoDup (map fst (visited m nested base)) -> mapping = visited m nested base)
  /\ (forall raw,
        snd (_generate_leaflet_string m nested base []) = ret raw ->
        tidy idc mapping raw = true ->
        generate_leaflet_string m nested base = ret (resolve idc mapping raw)
        /\ forall k, In k (keys mapping) ->
                     Text.occurs k (resolve idc mapping raw) = false).
Proof.
  cbn zeta. rewrite full_mapping. split; [reflexivity|]. split; [|split; [|split]].
  - destruct m; reflexivity.
  - intros k Hk. apply keys_dict_update. right. exact Hk.
  - intros Hnd. rewrite dict_update_fresh; [reflexivity | exact Hnd].
  - intros raw Hraw Htidy. rewrite script_is_assemble in Hraw.
    rewrite generate_leaflet_string_unfold, Hraw. unfold ret. cbv beta iota.
    destruct (substitute_is_resolve idc _ raw Htidy) as [Hs Hc].
    rewrite Hs. split; [reflexivity | exact Hc].
Qed.

Lemma mapping_complete_witness :
  snd (fst (generate_leaflet_string_full control_map true "map_div"))
  = [("5f9d", "map_div"); ("c0de", "map_div_0"); ("77aa", "map_div_1")]
  /\ generate_leaflet_string control_map true "map_div"
     = ret ("var map_map_div;" ++ Text.nl ++ "L.control(map_map_div);"
            ++ Text.nl ++ "var marker_map_div_1;")
  /\ Text.occurs "5f9d"
       ("var map_map_div;" ++ Text.nl ++ "L.control(map_map_div);"
        ++ Text.nl ++ "var marker_map_div_1;") = false.
Proof.
  destruct (mapping_complete hex_char control_map true "map_div")
    as (_ & _ & _ & Hnd & Hfree).
  assert (Hraw : snd (_generate_leaflet_string control_map true "map_div" [])
                 = ret ("var map_map_div;" ++ Text.nl ++ "L.control(map_5f9d);"
                        ++ Text.nl ++ "var marker_map_div_1;"))
    by (vm_compute; reflexivity).
  assert (Ht : tidy hex_char (snd (fst (generate_leaflet_string_full control_map true "map_div")))
                 ("var map_map_div;" ++ Text.nl ++ "L.control(map_5f9d);"
                  ++ Text.nl ++ "var marker_map_div_1;") = true)
    by (vm_compute; reflexivity).
  destruct (Hfree _ Hraw Ht) as [Hout Hclear].
  split; [|split].
  - apply Hnd. vm_compute.
    repeat (constructor; [cbn; intuition discriminate|]). constructor.
  - vm_compute in Hout. vm_compute. exact Hout.
  - assert (Hk : In "5f9d"
                   (keys (snd (fst (generate_leaflet_string_full control_map true "map_div")))))
      by (vm_compute; left; reflexivity).
    specialize (Hclear "5f9d" Hk). vm_compute in Hclear. vm_compute. exact Hclear.
Defined.

(** ** Two runs on trees that are alike *)


